(** * hello-edge-tts (Python): SSML composer/validator, configuration
      checks and batch synthesis

    A shallow embedding of [ssml_utils.py], [config_manager.py] and the
    synthesis methods of [tts_client.py], with the properties the
    specification states about them.

    Python [str] values are modelled as [string] (characters as [ascii]),
    [bytes] as [list byte], [int] as [Z], lists as [list].  Exceptions are
    modelled by a sum type carrying the exception class and [str(e)]. *)

From Stdlib Require Import ZArith Ascii String Strings.Byte DecimalString.
From Stdlib Require Import Sorting.Sorted.
From stdpp Require Import base option list strings gmap.

Local Open Scope string_scope.
Local Open Scope list_scope.
Local Open Scope nat_scope.

(** ** Python string primitives *)

Module Py.

(** Characters that cannot be written inside a literal. *)
Definition dquote : string := String (ascii_of_nat 34) EmptyString.
Definition newline : string := String (ascii_of_nat 10) EmptyString.

(** [s1 + s2]. *)
Definition cat (s1 s2 : string) : string := String.append s1 s2.
Infix "+++" := cat (at level 60, right associativity).

(** [sep.join(parts)]. *)
Fixpoint join (sep : string) (parts : list string) : string :=
  match parts with
  | [] => EmptyString
  | [p] => p
  | p :: ps => p +++ sep +++ join sep ps
  end.

(** [s.split(sep)] for a one-character separator: always at least one
    segment, empty segments kept. *)
Fixpoint split (sep : ascii) (s : string) : list string :=
  match s with
  | EmptyString => [EmptyString]
  | String c s' =>
      if Ascii.eqb c sep then EmptyString :: split sep s'
      else match split sep s' with
           | seg :: segs => String c seg :: segs
           | [] => [String c EmptyString]
           end
  end.

(** [s.endswith(suffix)]. *)
Definition endswith (s suffix : string) : bool :=
  let n := String.length s in
  let k := String.length suffix in
  (k <=? n)%nat && String.eqb (substring (n - k) k s) suffix.

(** [s[:n]]. *)
Definition prefix_slice (n : nat) (s : string) : string := substring 0 n s.

(** [str(n)] for a non-negative integer. *)
Definition str_of_nat (n : nat) : string :=
  NilEmpty.string_of_uint (Nat.to_uint n).

(** Truthiness of a [str]: empty is false. *)
Definition truthy (s : string) : bool := negb (String.eqb s EmptyString).

(** Truthiness of an [Optional[str]]: [None] and the empty string are false. *)
Definition truthy_opt (o : option string) : bool :=
  match o with
  | Some s => truthy s
  | None => false
  end.

(** [needle in haystack] on strings. *)
Fixpoint contains (needle haystack : string) : bool :=
  String.prefix needle haystack ||
  match haystack with
  | EmptyString => false
  | String _ rest => contains needle rest
  end.

(** [c in s] for one character. *)
Fixpoint has_char (c : ascii) (s : string) : bool :=
  match s with
  | EmptyString => false
  | String c' rest => Ascii.eqb c' c || has_char c rest
  end.

End Py.

Import Py.
Infix "+++" := Py.cat (at level 60, right associativity).

(** ** ssml_utils.py: SSMLBuilder *)

Module Builder.

(** Instance state of [SSMLBuilder]: [self.voice], [self.lang],
    [self.elements]. *)
Record SSMLBuilder := mkBuilder {
  voice : string;
  lang : string;
  elements : list string
}.

(** [SSMLBuilder._extract_language]. *)
Definition _extract_language (voice : string) : string :=
  match split "-" voice with
  | p0 :: p1 :: _ => p0 +++ "-" +++ p1
  | _ => "en-US"
  end.

(** [SSMLBuilder.__init__(voice, lang=None)]: [lang or
    self._extract_language(voice)]. *)
Definition __init__ (voice : string) (lang : option string) : SSMLBuilder :=
  {| voice := voice;
     lang := match lang with
             | Some l => if truthy l then l else _extract_language voice
             | None => _extract_language voice
             end;
     elements := [] |}.

(** [self.elements.append(x); return self]. *)
Definition append_element (b : SSMLBuilder) (x : string) : SSMLBuilder :=
  {| voice := voice b; lang := lang b; elements := elements b ++ [x] |}.

Definition add_text (b : SSMLBuilder) (text : string) : SSMLBuilder :=
  append_element b text.

(** One [name="value"] attribute as the f-strings of the module write it. *)
Definition attr (name value : string) : string :=
  name +++ "=" +++ dquote +++ value +++ dquote.

Definition add_prosody (b : SSMLBuilder) (text : string)
    (rate pitch volume : option string) : SSMLBuilder :=
  let opt_attr name o :=
    match o with
    | Some v => if truthy v then [attr name v] else []
    | None => []
    end in
  let attrs := opt_attr "rate" rate ++ opt_attr "pitch" pitch
               ++ opt_attr "volume" volume in
  let attr_str :=
    match attrs with
    | [] => EmptyString
    | _ => " " +++ join " " attrs
    end in
  append_element b ("<prosody" +++ attr_str +++ ">" +++ text +++ "</prosody>").

Definition add_emphasis (b : SSMLBuilder) (text level : string) : SSMLBuilder :=
  append_element b
    ("<emphasis " +++ attr "level" level +++ ">" +++ text +++ "</emphasis>").

Definition add_break (b : SSMLBuilder) (time : string) : SSMLBuilder :=
  append_element b ("<break " +++ attr "time" time +++ "/>").

Definition add_say_as (b : SSMLBuilder) (text interpret_as : string)
    (format : option string) : SSMLBuilder :=
  let format_attr :=
    match format with
    | Some f => if truthy f then " " +++ attr "format" f else EmptyString
    | None => EmptyString
    end in
  append_element b
    ("<say-as " +++ attr "interpret-as" interpret_as +++ format_attr +++ ">"
     +++ text +++ "</say-as>").

Definition add_phoneme (b : SSMLBuilder) (text alphabet ph : string)
    : SSMLBuilder :=
  append_element b
    ("<phoneme " +++ attr "alphabet" alphabet +++ " " +++ attr "ph" ph +++ ">"
     +++ text +++ "</phoneme>").

Definition add_sub (b : SSMLBuilder) (text alias : string) : SSMLBuilder :=
  append_element b
    ("<sub " +++ attr "alias" alias +++ ">" +++ text +++ "</sub>").

(** [SSMLBuilder.build]. *)
Definition build (b : SSMLBuilder) : string :=
  let content := join EmptyString (elements b) in
  "<speak " +++ attr "version" "1.0" +++ " "
  +++ attr "xmlns" "http://www.w3.org/2001/10/synthesis" +++ " "
  +++ attr "xml:lang" (lang b) +++ ">" +++ newline
  +++ "    <voice " +++ attr "name" (voice b) +++ ">" +++ newline
  +++ "        " +++ content +++ newline
  +++ "    </voice>" +++ newline
  +++ "</speak>".

(** The fragment-appending operations as data, so that a document can be
    described by its operation sequence. *)
Inductive op :=
| AddText (text : string)
| AddProsody (text : string) (rate pitch volume : option string)
| AddEmphasis (text level : string)
| AddBreak (time : string)
| AddSayAs (text interpret_as : string) (format : option string)
| AddPhoneme (text alphabet ph : string)
| AddSub (text alias : string).

Definition apply_op (b : SSMLBuilder) (o : op) : SSMLBuilder :=
  match o with
  | AddText t => add_text b t
  | AddProsody t r p v => add_prosody b t r p v
  | AddEmphasis t l => add_emphasis b t l
  | AddBreak t => add_break b t
  | AddSayAs t i f => add_say_as b t i f
  | AddPhoneme t a p => add_phoneme b t a p
  | AddSub t a => add_sub b t a
  end.

Definition apply_ops (b : SSMLBuilder) (ops : list op) : SSMLBuilder :=
  foldl apply_op b ops.

End Builder.

(** ** xml.etree.ElementTree.fromstring

    [SSMLValidator.validate] starts with [ET.fromstring(ssml)], the XML
    parser of the Python standard library.  It is outside the repository, so
    it is modelled here, for the fragment of XML made of elements,
    attributes, character data and namespace declarations over ASCII input.
    The parser is namespace aware: a declaration [xmlns="u"] or
    [xmlns:p="u"] is consumed (it is not an entry of [attrib]), and the tag
    of an element in namespace [u] is [{u}local].  Input that uses anything
    else (references [&...;], comments, processing instructions, CDATA,
    DOCTYPE, non-ASCII bytes, the reserved prefixes and namespace names) is
    reported as [Unmodelled] and nothing is claimed about it.  Only
    [tag], [attrib] and the children of an element are kept: the validator
    reads nothing else. *)

Module XML.

#[local] Unset Elimination Schemes.
Inductive Element :=
  Elem (tag : string) (attrib : gmap string string) (children : list Element).
#[local] Set Elimination Schemes.

(** Induction over an element and all its descendants. *)
Fixpoint Element_ind (P : Element -> Prop)
    (step : forall t a kids, Forall P kids -> P (Elem t a kids))
    (e : Element) : P e :=
  match e with
  | Elem t a kids =>
      step t a kids
        ((fix all (l : list Element) : Forall P l :=
            match l with
            | [] => @List.Forall_nil _ P
            | k :: l' =>
                @List.Forall_cons _ P k l' (Element_ind P step k) (all l')
            end) kids)
  end.

Definition tag (e : Element) : string := let 'Elem t _ _ := e in t.
Definition attrib (e : Element) : gmap string string := let 'Elem _ a _ := e in a.
Definition children (e : Element) : list Element := let 'Elem _ _ c := e in c.

(** The outcome of [ET.fromstring]: the root element, or [ET.ParseError]
    raised.  The text of the exception (expat's description of the error and
    its line and column) is not modelled. *)
Inductive parse_outcome :=
| Parsed (root : Element)
| ParseError
| Unmodelled.

(** *** Character classes *)

Definition code (c : ascii) : nat := nat_of_ascii c.
Definition is_ws (c : ascii) : bool :=
  let n := code c in (n =? 32) || (n =? 9) || (n =? 10) || (n =? 13).
Definition is_alpha (c : ascii) : bool :=
  let n := code c in ((65 <=? n) && (n <=? 90)) || ((97 <=? n) && (n <=? 122)).
Definition is_digit (c : ascii) : bool :=
  let n := code c in (48 <=? n) && (n <=? 57).
Definition is_nmstrt (c : ascii) : bool := is_alpha c || (code c =? 95).
Definition is_nmchar (c : ascii) : bool :=
  is_nmstrt c || is_digit c || (code c =? 45) || (code c =? 46).
Definition is_ctl (c : ascii) : bool := (code c <? 32) && negb (is_ws c).
Definition is_high (c : ascii) : bool := 128 <=? code c.
Definition is_char (k : nat) (c : ascii) : bool := code c =? k.

Definition snoc (s : string) (c : ascii) : string := s +++ String c EmptyString.

(** *** Tokens *)

Inductive token :=
| TStart (name : string) (attrs : list (string * string)) (empty : bool)
| TEnd (name : string)
| TText (blank : bool).

Inductive lex_stop := StopEnd | StopUnclosed | StopInvalid | StopUnmodelled.

(** A qualified name being read: at most one colon, and a name start
    character after it. *)
Record qname := QName { q_buf : string; q_colon : bool; q_fresh : bool }.

Inductive name_step := NCont (q : qname) | NStop | NBad.

Definition name_next (q : qname) (c : ascii) : name_step :=
  if is_char 58 c then
    if q_colon q || q_fresh q then NBad
    else NCont (QName (snoc (q_buf q) c) true true)
  else if q_fresh q then
    if is_nmstrt c then NCont (QName (snoc (q_buf q) c) (q_colon q) false)
    else NBad
  else if is_nmchar c then NCont (QName (snoc (q_buf q) c) (q_colon q) false)
  else NStop.

Definition name_start (c : ascii) : qname :=
  QName (String c EmptyString) false false.

Inductive mode :=
| MText (started blank : bool) (rb : nat)
| MLt
| MStartName (q : qname)
| MAttrSpace (name : string) (attrs : list (string * string))
| MAttrName (name : string) (attrs : list (string * string)) (q : qname)
| MAttrEqWait (name : string) (attrs : list (string * string)) (aname : string)
| MAttrQuoteWait (name : string) (attrs : list (string * string)) (aname : string)
| MAttrValue (name : string) (attrs : list (string * string)) (aname : string)
    (quote : ascii) (buf : string) (cr : bool)
| MAfterAttr (name : string) (attrs : list (string * string))
| MEmptyClose (name : string) (attrs : list (string * string))
| MEndLt
| MEndName (q : qname)
| MEndSpace (name : string).

Inductive lex_step :=
| Go (emit : list token) (m : mode)
| Halt (emit : list token) (why : lex_stop).

Definition text0 : mode := MText false true 0.

Definition flush_text (started blank : bool) : list token :=
  if started then [TText blank] else [].

(** What follows the name of a start tag or one of its attributes. *)
Definition tag_tail (name : string) (attrs : list (string * string))
    (c : ascii) : lex_step :=
  if is_ws c then Go [] (MAttrSpace name attrs)
  else if is_char 62 c then Go [TStart name attrs false] text0
  else if is_char 47 c then Go [] (MEmptyClose name attrs)
  else Halt [] StopInvalid.

Definition lex_char (m : mode) (c : ascii) : lex_step :=
  if is_high c then
    match m with
    | MText started blank _ => Halt (flush_text started blank) StopUnmodelled
    | _ => Halt [] StopUnmodelled
    end
  else
  match m with
  | MText started blank rb =>
      if is_char 60 c then Go (flush_text started blank) MLt
      else if is_char 38 c then Halt (flush_text started blank) StopUnmodelled
      else if is_ctl c then Halt (flush_text started blank) StopInvalid
      else if is_char 62 c && (2 <=? rb) then
        Halt (flush_text started blank) StopInvalid
      else Go [] (MText true (blank && is_ws c)
                    (if is_char 93 c then S rb else 0))
  | MLt =>
      if is_nmstrt c then Go [] (MStartName (name_start c))
      else if is_char 47 c then Go [] MEndLt
      else if is_char 33 c || is_char 63 c then Halt [] StopUnmodelled
      else Halt [] StopInvalid
  | MStartName q =>
      match name_next q c with
      | NCont q' => Go [] (MStartName q')
      | NBad => Halt [] StopInvalid
      | NStop => tag_tail (q_buf q) [] c
      end
  | MAttrSpace name attrs =>
      if is_ws c then Go [] (MAttrSpace name attrs)
      else if is_nmstrt c then Go [] (MAttrName name attrs (name_start c))
      else if is_char 62 c then Go [TStart name attrs false] text0
      else if is_char 47 c then Go [] (MEmptyClose name attrs)
      else Halt [] StopInvalid
  | MAttrName name attrs q =>
      match name_next q c with
      | NCont q' => Go [] (MAttrName name attrs q')
      | NBad => Halt [] StopInvalid
      | NStop =>
          if is_ws c then Go [] (MAttrEqWait name attrs (q_buf q))
          else if is_char 61 c then Go [] (MAttrQuoteWait name attrs (q_buf q))
          else Halt [] StopInvalid
      end
  | MAttrEqWait name attrs aname =>
      if is_ws c then Go [] (MAttrEqWait name attrs aname)
      else if is_char 61 c then Go [] (MAttrQuoteWait name attrs aname)
      else Halt [] StopInvalid
  | MAttrQuoteWait name attrs aname =>
      if is_ws c then Go [] (MAttrQuoteWait name attrs aname)
      else if is_char 34 c || is_char 39 c then
        Go [] (MAttrValue name attrs aname c EmptyString false)
      else Halt [] StopInvalid
  | MAttrValue name attrs aname quote buf cr =>
      if Ascii.eqb c quote then Go [] (MAfterAttr name (attrs ++ [(aname, buf)]))
      else if is_char 60 c then Halt [] StopInvalid
      else if is_char 38 c then Halt [] StopUnmodelled
      else if is_ctl c then Halt [] StopInvalid
      else if is_char 13 c then
        Go [] (MAttrValue name attrs aname quote (snoc buf " ") true)
      else if is_char 10 c && cr then
        Go [] (MAttrValue name attrs aname quote buf false)
      else if is_ws c then
        Go [] (MAttrValue name attrs aname quote (snoc buf " ") false)
      else Go [] (MAttrValue name attrs aname quote (snoc buf c) false)
  | MAfterAttr name attrs => tag_tail name attrs c
  | MEmptyClose name attrs =>
      if is_char 62 c then Go [TStart name attrs true] text0
      else Halt [] StopInvalid
  | MEndLt =>
      if is_nmstrt c then Go [] (MEndName (name_start c))
      else Halt [] StopInvalid
  | MEndName q =>
      match name_next q c with
      | NCont q' => Go [] (MEndName q')
      | NBad => Halt [] StopInvalid
      | NStop =>
          if is_ws c then Go [] (MEndSpace (q_buf q))
          else if is_char 62 c then Go [TEnd (q_buf q)] text0
          else Halt [] StopInvalid
      end
  | MEndSpace name =>
      if is_ws c then Go [] (MEndSpace name)
      else if is_char 62 c then Go [TEnd name] text0
      else Halt [] StopInvalid
  end.

(** The tokens read before the input ends or the first lexical error. *)
Fixpoint lex (m : mode) (s : string) : list token * lex_stop :=
  match s with
  | EmptyString =>
      match m with
      | MText started blank _ => (flush_text started blank, StopEnd)
      | _ => ([], StopUnclosed)
      end
  | String c rest =>
      match lex_char m c with
      | Go emit m' => let '(toks, why) := lex m' rest in (emit ++ toks, why)
      | Halt emit why => (emit, why)
      end
  end.

(** *** Namespaces and the element tree *)

Record ns_scope := Scope {
  default_ns : option string;
  prefixes : list (string * string)
}.

Definition xml_ns : string := "http://www.w3.org/XML/1998/namespace".
Definition xmlns_ns : string := "http://www.w3.org/2000/xmlns/".
(** Namespace names the model leaves out: the two reserved ones, and names
    holding the [}] that closes the [{uri}] part of a tag. *)
Definition reserved_ns (uri : string) : bool :=
  String.eqb uri xml_ns || String.eqb uri xmlns_ns || contains "}" uri.

(** The prefix [xml] is bound from the start. *)
Definition scope0 : ns_scope := Scope None [("xml", xml_ns)].

Fixpoint assoc (k : string) (l : list (string * string)) : option string :=
  match l with
  | [] => None
  | (k', v) :: rest => if String.eqb k k' then Some v else assoc k rest
  end.

Definition split_qname (n : string) : option string * string :=
  match split ":" n with
  | [p; l] => (Some p, l)
  | _ => (None, n)
  end.

(** [{uri}local], the name ElementTree gives to a name in a namespace. *)
Definition clark (uri local : string) : string := "{" +++ uri +++ "}" +++ local.

Inductive resolved (A : Type) :=
| ROk (a : A)
| RErr
| RUnmodelled.
Arguments ROk {A} a.
Arguments RErr {A}.
Arguments RUnmodelled {A}.

Definition rbind {A B} (r : resolved A) (k : A -> resolved B) : resolved B :=
  match r with
  | ROk a => k a
  | RErr => RErr
  | RUnmodelled => RUnmodelled
  end.

(** First pass over the attributes of a start tag, in document order:
    repeated names are refused, namespace declarations update the scope
    and are dropped, the others are kept. *)
Fixpoint scan_attrs (seen : list string) (sc : ns_scope)
    (kept : list (string * string)) (attrs : list (string * string))
    : resolved (ns_scope * list (string * string)) :=
  match attrs with
  | [] => ROk (sc, kept)
  | (n, v) :: rest =>
      if existsb (String.eqb n) seen then RErr
      else if String.eqb n "xmlns" then
        if reserved_ns v then RUnmodelled
        else scan_attrs (n :: seen)
               (Scope (if String.eqb v EmptyString then None else Some v)
                      (prefixes sc)) kept rest
      else
        match split_qname n with
        | (Some pre, p) =>
            if String.eqb pre "xmlns" then
              if String.eqb p "xml" || String.eqb p "xmlns"
                 || String.eqb v EmptyString || reserved_ns v
              then RUnmodelled
              else scan_attrs (n :: seen)
                     (Scope (default_ns sc) ((p, v) :: prefixes sc)) kept rest
            else scan_attrs (n :: seen) sc (kept ++ [(n, v)]) rest
        | (None, _) => scan_attrs (n :: seen) sc (kept ++ [(n, v)]) rest
        end
  end.

(** Second pass: attribute names are expanded (an unprefixed attribute is in
    no namespace) and collected into the [attrib] dictionary. *)
Fixpoint expand_attrs (sc : ns_scope) (acc : gmap string string)
    (attrs : list (string * string)) : resolved (gmap string string) :=
  match attrs with
  | [] => ROk acc
  | (n, v) :: rest =>
      let key :=
        match split_qname n with
        | (Some p, l) =>
            match assoc p (prefixes sc) with
            | Some uri => ROk (clark uri l)
            | None => RErr
            end
        | (None, l) => ROk l
        end in
      rbind key (fun k =>
        match acc !! k with
        | Some _ => RErr
        | None => expand_attrs sc (<[k := v]> acc) rest
        end)
  end.

Definition expand_tag (sc : ns_scope) (n : string) : resolved string :=
  match split_qname n with
  | (Some p, l) =>
      if String.eqb p "xmlns" then RUnmodelled
      else match assoc p (prefixes sc) with
           | Some uri => ROk (clark uri l)
           | None => RErr
           end
  | (None, l) =>
      ROk (match default_ns sc with
           | Some uri => clark uri l
           | None => l
           end)
  end.

(** An element whose end tag has not been read yet. *)
Record frame := Frame {
  f_name : string;
  f_tag : string;
  f_attrib : gmap string string;
  f_kids : list Element;
  f_scope : ns_scope
}.

Definition tree_state : Type := list frame * option Element.

Definition attach (e : Element) (stack : list frame) (root : option Element)
    : tree_state :=
  match stack with
  | [] => ([], Some e)
  | f :: fs =>
      (Frame (f_name f) (f_tag f) (f_attrib f) (f_kids f ++ [e]) (f_scope f)
         :: fs, root)
  end.

Definition tree_step (st : tree_state) (t : token) : resolved tree_state :=
  let '(stack, root) := st in
  match t with
  | TText blank =>
      match stack, root with
      | [], _ => if blank then ROk st else RErr
      | _ :: _, _ => ROk st
      end
  | TStart name attrs empty =>
      match stack, root with
      | [], Some _ => RErr
      | _, _ =>
          let outer :=
            match stack with
            | f :: _ => f_scope f
            | [] => scope0
            end in
          rbind (scan_attrs [] outer [] attrs) (fun '(sc, kept) =>
          rbind (expand_attrs sc ∅ kept) (fun att =>
          rbind (expand_tag sc name) (fun tg =>
            if empty then ROk (attach (Elem tg att []) stack root)
            else ROk (Frame name tg att [] sc :: stack, root))))
      end
  | TEnd name =>
      match stack, root with
      | [], _ => RErr
      | f :: fs, _ =>
          if String.eqb (f_name f) name
          then ROk (attach (Elem (f_tag f) (f_attrib f) (f_kids f)) fs root)
          else RErr
      end
  end.

Fixpoint tree_of (st : tree_state) (toks : list token) : resolved tree_state :=
  match toks with
  | [] => ROk st
  | t :: rest => rbind (tree_step st t) (fun st' => tree_of st' rest)
  end.

(** [ET.fromstring(s)]. *)
Definition fromstring (s : string) : parse_outcome :=
  let '(toks, why) := lex text0 s in
  match tree_of ([], None) toks with
  | RErr => ParseError
  | RUnmodelled => Unmodelled
  | ROk (stack, root) =>
      match why with
      | StopUnmodelled => Unmodelled
      | StopInvalid | StopUnclosed => ParseError
      | StopEnd =>
          match stack, root with
          | [], Some r => Parsed r
          | _, _ => ParseError
          end
      end
  end.

End XML.

(** ** Python exceptions *)

(** An exception is its class and [str(e)]. *)
Inductive exn :=
| TTSError (msg : string)
| ValueError (msg : string)
| OtherException (msg : string).

Definition str_exn (e : exn) : string :=
  match e with
  | TTSError m | ValueError m | OtherException m => m
  end.

Inductive result (A : Type) :=
| Return (a : A)
| Raise (e : exn).
Arguments Return {A} a.
Arguments Raise {A} e.

(** ** ssml_utils.py: SSMLValidator *)

Module Validator.
Import XML.

Definition VALID_PROSODY_RATES : gset string :=
  list_to_set ["x-slow"; "slow"; "medium"; "fast"; "x-fast"].
Definition VALID_PROSODY_PITCHES : gset string :=
  list_to_set ["x-low"; "low"; "medium"; "high"; "x-high"].
Definition VALID_PROSODY_VOLUMES : gset string :=
  list_to_set ["silent"; "x-soft"; "soft"; "medium"; "loud"; "x-loud"].
Definition VALID_EMPHASIS_LEVELS : gset string :=
  list_to_set ["strong"; "moderate"; "reduced"].
Definition VALID_BREAK_STRENGTHS : gset string :=
  list_to_set ["none"; "x-weak"; "weak"; "medium"; "strong"; "x-strong"].

(** [x in S]. *)
Definition member (x : string) (S : gset string) : bool := bool_decide (x ∈ S).

(** Each [_validate_*] method receives the shared [errors] list and appends
    to it; here it returns the list after its appends. *)

Definition _validate_prosody (element : Element) (errors : list string)
    : list string :=
  let errors :=
    match attrib element !! "rate" with
    | Some rate =>
        if negb (member rate VALID_PROSODY_RATES
                 || endswith rate "%" || endswith rate "Hz")
        then errors ++ ["Invalid prosody rate: " +++ rate]
        else errors
    | None => errors
    end in
  let errors :=
    match attrib element !! "pitch" with
    | Some pitch =>
        if negb (member pitch VALID_PROSODY_PITCHES
                 || endswith pitch "Hz" || endswith pitch "st")
        then errors ++ ["Invalid prosody pitch: " +++ pitch]
        else errors
    | None => errors
    end in
  match attrib element !! "volume" with
  | Some volume =>
      if negb (member volume VALID_PROSODY_VOLUMES || endswith volume "dB")
      then errors ++ ["Invalid prosody volume: " +++ volume]
      else errors
  | None => errors
  end.

Definition _validate_emphasis (element : Element) (errors : list string)
    : list string :=
  match attrib element !! "level" with
  | Some level =>
      if negb (member level VALID_EMPHASIS_LEVELS)
      then errors ++ ["Invalid emphasis level: " +++ level]
      else errors
  | None => errors
  end.

Definition _validate_break (element : Element) (errors : list string)
    : list string :=
  let errors :=
    match attrib element !! "time" with
    | Some time =>
        if negb (endswith time "s" || endswith time "ms")
        then errors ++ ["Invalid break time format: " +++ time]
        else errors
    | None => errors
    end in
  match attrib element !! "strength" with
  | Some strength =>
      if negb (member strength VALID_BREAK_STRENGTHS)
      then errors ++ ["Invalid break strength: " +++ strength]
      else errors
  | None => errors
  end.

Definition _validate_say_as (element : Element) (errors : list string)
    : list string :=
  match attrib element !! "interpret-as" with
  | None => errors ++ ["say-as element missing interpret-as attribute"]
  | Some _ => errors
  end.

(** The dispatch on [element.tag] at the head of [_validate_element]. *)
Definition validate_tag (element : Element) (errors : list string)
    : list string :=
  if String.eqb (tag element) "prosody" then _validate_prosody element errors
  else if String.eqb (tag element) "emphasis" then _validate_emphasis element errors
  else if String.eqb (tag element) "break" then _validate_break element errors
  else if String.eqb (tag element) "say-as" then _validate_say_as element errors
  else errors.

Fixpoint _validate_element (element : Element) (errors : list string)
    : list string :=
  let errors := validate_tag element errors in
  match element with
  | Elem _ _ kids =>
      foldl (fun errors child => _validate_element child errors) errors kids
  end.

(** The body of the [try] block of [validate], after [root] was parsed. *)
Definition validate_root (root : Element) : list string :=
  let errors := [] in
  let errors :=
    if negb (String.eqb (tag root) "speak")
    then errors ++ ["Root element must be <speak>"] else errors in
  let errors :=
    match attrib root !! "version" with
    | None => errors ++ ["Missing version attribute in <speak> element"]
    | Some _ => errors
    end in
  let errors :=
    match attrib root !! "xmlns" with
    | None => errors ++ ["Missing xmlns attribute in <speak> element"]
    | Some _ => errors
    end in
  _validate_element root errors.

Section Validate.

(** [str(e)] of the [ET.ParseError] raised for an input that does not
    parse. *)
Variable parse_error_text : string -> string.

(** [SSMLValidator.validate].  [None] only for input outside the modelled
    fragment of XML. *)
Definition validate (ssml : string) : option (list string) :=
  match fromstring ssml with
  | Parsed root => Some (validate_root root)
  | ParseError => Some ["XML parsing error: " +++ parse_error_text ssml]
  | Unmodelled => None
  end.

(** [validate_ssml(ssml, raise_on_error)]. *)
Definition validate_ssml (ssml : string) (raise_on_error : bool)
    : option (result (list string)) :=
  match validate ssml with
  | None => None
  | Some errors =>
      match errors with
      | _ :: _ =>
          if raise_on_error
          then Some (Raise (ValueError
                 ("SSML validation failed: " +++ join "; " errors)))
          else Some (Return errors)
      | [] => Some (Return errors)
      end
  end.

End Validate.

End Validator.

(** ** config_manager.py: TTSConfig *)

Module Config.

Record TTSConfig := mkConfig {
  default_voice : string;
  output_format : string;
  output_directory : string;
  auto_play : bool;
  cache_voices : bool;
  max_retries : Z;
  timeout : Z;
  rate : string;
  pitch : string;
  volume : string;
  ssml : bool;
  batch_size : Z;
  max_concurrent : Z
}.

(** [TTSConfig.__post_init__]. *)
Definition __post_init__ (self : TTSConfig) : result unit :=
  if (max_retries self <? 0)%Z then
    Raise (ValueError "max_retries must be non-negative")
  else if (timeout self <=? 0)%Z then
    Raise (ValueError "timeout must be positive")
  else if negb (truthy (default_voice self)) then
    Raise (ValueError "default_voice cannot be empty")
  else if (batch_size self <=? 0)%Z then
    Raise (ValueError "batch_size must be positive")
  else if (max_concurrent self <=? 0)%Z then
    Raise (ValueError "max_concurrent must be positive")
  else Return tt.

(** Construction of the dataclass: the generated [__init__] stores the
    fields and then runs [__post_init__]; the instance exists only if that
    returns. *)
Definition new (fields : TTSConfig) : result TTSConfig :=
  match __post_init__ fields with
  | Return _ => Return fields
  | Raise e => Raise e
  end.

(** The field defaults of the dataclass: [TTSConfig()]. *)
Definition defaults : TTSConfig :=
  {| default_voice := "en-US-AriaNeural";
     output_format := "mp3";
     output_directory := "./output";
     auto_play := true;
     cache_voices := true;
     max_retries := 3;
     timeout := 30000;
     rate := "0%";
     pitch := "0%";
     volume := "100%";
     ssml := false;
     batch_size := 5;
     max_concurrent := 3 |}.

End Config.

(** ** tts_client.py: TTSClient *)

Module Client.

Definition bytes : Type := list byte.

(** One item of [communicate.stream()]: [chunk["type"]] and, for audio,
    [chunk["data"]]. *)
Record chunk := Chunk { chunk_type : string; chunk_data : bytes }.

(** What iterating [edge_tts.Communicate(text, voice).stream()] does: it
    yields [chunks] and then ends, or raises [failure]. *)
Record stream := Stream { chunks : list chunk; failure : option exn }.

(** [try: body  except Exception as e: handler(e)]. *)
Definition try_except {A} (body : result A) (handler : exn -> result A)
    : result A :=
  match body with
  | Return a => Return a
  | Raise e => handler e
  end.

Definition bind {A B} (r : result A) (k : A -> result B) : result B :=
  match r with
  | Return a => k a
  | Raise e => Raise e
  end.

(** [asyncio.Semaphore]: the counter [_value]. *)
Module Semaphore.

Definition new (value : Z) : result Z :=
  if (value <? 0)%Z
  then Raise (ValueError "Semaphore initial value must be >= 0")
  else Return value.

(** [acquire] completes only while the counter is positive. *)
Definition acquire (value : Z) : option Z :=
  if (0 <? value)%Z then Some (value - 1)%Z else None.

Definition release (value : Z) : Z := (value + 1)%Z.

End Semaphore.

(** [results.sort(key=lambda x: x[0])]: a stable sort on the first
    component. *)
Fixpoint insert_by_index (x : nat * bytes) (l : list (nat * bytes))
    : list (nat * bytes) :=
  match l with
  | [] => [x]
  | y :: l' =>
      if fst x <=? fst y then x :: y :: l' else y :: insert_by_index x l'
  end.

Fixpoint sort_by_index (l : list (nat * bytes)) : list (nat * bytes) :=
  match l with
  | [] => []
  | x :: l' => insert_by_index x (sort_by_index l')
  end.

Section TTSClient.

(** [validate_ssml(ssml, raise_on_error=False)] of [ssml_utils], as the
    client imports it: the diagnostics, on every input. *)
Variable ssml_errors : string -> list string.

(** The service: the stream it serves to the request made for unit [i]
    with this text and voice. *)
Variable net : nat -> string -> string -> stream.

(** [TTSClient._validate_ssml]. *)
Definition _validate_ssml (ssml : string) : result unit :=
  try_except
    (match ssml_errors ssml with
     | [] => Return tt
     | errors =>
         Raise (TTSError ("SSML validation failed: " +++ join "; " errors))
     end)
    (fun e => Raise (TTSError ("SSML validation error: " +++ str_exn e))).

(** The [async for] loop of [synthesize_text] over the chunks received. *)
Definition collect_audio (cs : list chunk) : bytes :=
  foldl (fun audio_data c =>
           if String.eqb (chunk_type c) "audio"
           then audio_data ++ chunk_data c else audio_data) [] cs.

(** [TTSClient.synthesize_text], on the stream [st] that its request is
    served. *)
Definition synthesize_text (st : stream) (text voice : string)
    (use_ssml : bool) : result bytes :=
  try_except
    (bind (if use_ssml then _validate_ssml text else Return tt) (fun _ =>
     let audio_data := collect_audio (chunks st) in
     match failure st with
     | Some e => Raise e
     | None =>
         match audio_data with
         | [] =>
             Raise (TTSError ("No audio data generated for text: "
                              +++ prefix_slice 50 text +++ "..."))
         | _ :: _ => Return audio_data
         end
     end))
    (fun e => Raise (TTSError ("Failed to synthesize text: " +++ str_exn e))).

Variable voice : string.
Variable use_ssml : bool.

(** The call a batch makes for unit [i]. *)
Definition call (i : nat) (text : string) : result bytes :=
  synthesize_text (net i text voice) text voice use_ssml.

(** *** batch_synthesize_text

    The loop over [enumerate(texts)]; [calls] logs the indices for which
    [synthesize_text] was called.  (The [print] of each item is left out.) *)
Fixpoint batch_loop (i : nat) (texts : list string) (results : list bytes)
    (calls : list nat) : result (list bytes) * list nat :=
  match texts with
  | [] => (Return results, calls)
  | text :: rest =>
      match call i text with
      | Return audio_data =>
          batch_loop (S i) rest (results ++ [audio_data]) (calls ++ [i])
      | Raise e =>
          (Raise (TTSError ("Failed to synthesize batch item "
                            +++ str_of_nat (i + 1) +++ ": " +++ str_exn e)),
           calls ++ [i])
      end
  end.

Definition batch_synthesize_text (texts : list string)
    : result (list bytes) * list nat :=
  batch_loop 0 texts [] [].

(** *** batch_synthesize_concurrent

    One task per unit runs [synthesize_with_semaphore]: it waits for the
    semaphore, makes its call while holding it, and releases it when the
    call returns or raises.  The event loop interleaves the tasks; a run
    is a sequence of events, each the next move of one task. *)

Inductive task :=
| Waiting
| Running
| Finished (r : result (nat * bytes)).

Record loop := Loop {
  sem : Z;
  tasks : list task;
  raised : option exn;
  calls : list nat
}.

Inductive event :=
| Acquire (i : nat)
| Complete (i : nat).

Variable texts : list string.

(** What [synthesize_with_semaphore(text, index)] returns or raises once
    its call is over.  There is one task per text, so [index] is always in
    range; the last branch only makes the function total. *)
Definition task_result (index : nat) : result (nat * bytes) :=
  match texts !! index with
  | Some text =>
      try_except
        (bind (call index text) (fun audio_data =>
           Return (index, audio_data)))
        (fun e =>
           Raise (TTSError ("Failed to synthesize concurrent item "
                            +++ str_of_nat (index + 1) +++ ": "
                            +++ str_exn e)))
  | None => Raise (OtherException "no such task")
  end.

(** [asyncio.gather] hands the first exception raised by a task to its
    caller at once, and leaves the other tasks running. *)
Definition propagate (raised : option exn) (r : result (nat * bytes))
    : option exn :=
  match raised, r with
  | Some e, _ => Some e
  | None, Raise e => Some e
  | None, Return _ => None
  end.

Definition step (s : loop) (ev : event) : option loop :=
  match ev with
  | Acquire i =>
      match tasks s !! i with
      | Some Waiting =>
          match Semaphore.acquire (sem s) with
          | Some v =>
              Some (Loop v (<[i := Running]> (tasks s)) (raised s)
                      (calls s ++ [i]))
          | None => None
          end
      | _ => None
      end
  | Complete i =>
      match tasks s !! i with
      | Some Running =>
          let r := task_result i in
          Some (Loop (Semaphore.release (sem s))
                  (<[i := Finished r]> (tasks s))
                  (propagate (raised s) r) (calls s))
      | _ => None
      end
  end.

Fixpoint run (s : loop) (trace : list event) : option loop :=
  match trace with
  | [] => Some s
  | ev :: rest =>
      match step s ev with
      | Some s' => run s' rest
      | None => None
      end
  end.

(** The semaphore is created and one task per text is handed to
    [gather]. *)
Definition start (max_concurrent : Z) : result loop :=
  bind (Semaphore.new max_concurrent) (fun v =>
    Return (Loop v (map (fun _ => Waiting) texts) None [])).

(** The values of the tasks, in task order, once all have returned. *)
Fixpoint gathered (ts : list task) : option (list (nat * bytes)) :=
  match ts with
  | [] => Some []
  | Finished (Return r) :: rest =>
      match gathered rest with
      | Some rs => Some (r :: rs)
      | None => None
      end
  | _ => None
  end.

(** What the caller of [batch_synthesize_concurrent] has got in state [s]:
    the exception [gather] propagated, the list built from the gathered
    results, or nothing yet. *)
Definition outcome (s : loop) : option (result (list bytes)) :=
  match raised s with
  | Some e => Some (Raise e)
  | None =>
      match gathered (tasks s) with
      | Some results => Some (Return (map snd (sort_by_index results)))
      | None => None
      end
  end.

(** Calls started and not yet over. *)
Definition is_running (t : task) : nat :=
  match t with
  | Running => 1
  | _ => 0
  end.

Definition outstanding (s : loop) : nat := sum_list_with is_running (tasks s).

(** Moves a task still has to make: acquire and complete. *)
Definition moves_left (t : task) : nat :=
  match t with
  | Waiting => 2
  | Running => 1
  | Finished _ => 0
  end.

Definition work_left (s : loop) : nat := sum_list_with moves_left (tasks s).

(** The task whose call is the first of the run to end by raising. *)
Fixpoint first_failed (trace : list event) : option nat :=
  match trace with
  | [] => None
  | Complete i :: rest =>
      match task_result i with
      | Raise _ => Some i
      | Return _ => first_failed rest
      end
  | Acquire _ :: rest => first_failed rest
  end.

(** What holds of every state of a batch run with limit [K]. *)
Record consistent (K : Z) (s : loop) : Prop := Consistent {
  tasks_per_text : length (tasks s) = length texts;
  sem_nonneg : (0 <= sem s)%Z;
  slots_accounted : (sem s + Z.of_nat (outstanding s) = K)%Z;
  finished_result :
    forall i r, tasks s !! i = Some (Finished r) -> r = task_result i;
  failure_propagated :
    forall i e, tasks s !! i = Some (Finished (Raise e)) -> raised s <> None;
  raised_by_task :
    forall e, raised s = Some e ->
    exists i, tasks s !! i = Some (Finished (Raise e))
}.

End TTSClient.

End Client.

(** ** Sample inputs *)

Module Samples.
Import Builder Client.

(** A service that answers every request with one audio chunk holding the
    bytes of the text. *)
Definition echo_service (i : nat) (text voice : string) : stream :=
  Stream [Chunk "audio" (list_byte_of_string text)] None.

(** A service whose streams end without any chunk. *)
Definition silent_service (i : nat) (text voice : string) : stream :=
  Stream [] None.

(** A validator that accepts everything. *)
Definition no_diagnostics (ssml : string) : list string := [].

(** A document in the domain of the round-trip property: prosody with a
    named rate, emphasis with a known level, a break in seconds. *)
Definition plain_document : SSMLBuilder :=
  add_break
    (add_emphasis
       (add_prosody (__init__ "en-US-AriaNeural" None) "Hello"
          (Some "slow") None None)
       "world" "strong")
    "1s".

(** A document with a prosody rate and a break time outside their
    domains. *)
Definition faulty_document : SSMLBuilder :=
  add_break
    (add_prosody (__init__ "en-US-AriaNeural" None) "Hello"
       (Some "blurple") None None)
    "5".

(** The same two elements, written without the namespace declaration. *)
Definition faulty_markup_no_namespace : string :=
  "<speak version='1.0'><prosody rate='blurple'>Hello</prosody><break time='5'/></speak>".

End Samples.

(** ** More Python string primitives *)

Module PyStr.

(** [s.startswith(prefix)]. *)
Definition startswith (s prefix : string) : bool := String.prefix prefix s.

(** [s[:n]] for any integer [n]: a negative [n] counts from the end. *)
Definition slice_to (n : Z) (s : string) : string :=
  if (n <? 0)%Z
  then substring 0 (String.length s - Z.to_nat (- n)) s
  else substring 0 (Z.to_nat n) s.

(** [s.rstrip(chars)]: the characters of [chars] are removed from the end. *)
Fixpoint rstrip (chars : string) (s : string) : string :=
  match s with
  | EmptyString => EmptyString
  | String c rest =>
      match rstrip chars rest with
      | EmptyString =>
          if has_char c chars then EmptyString else String c EmptyString
      | kept => String c kept
      end
  end.

(** [parts[i]] on a list: [IndexError] when out of range. *)
Definition getitem_list (parts : list string) (i : nat) : result string :=
  match parts !! i with
  | Some p => Return p
  | None => Raise (OtherException "list index out of range")
  end.

(** [d[key]] on a dict with string keys: [KeyError], whose [str] is the
    quoted key. *)
Definition getitem_dict (d : gmap string string) (key : string)
    : result string :=
  match d !! key with
  | Some v => Return v
  | None => Raise (OtherException ("'" +++ key +++ "'"))
  end.

(** Every character replaced by [f]'s value, as a generator expression
    joined with the empty string does. *)
Fixpoint map_chars (f : ascii -> ascii) (s : string) : string :=
  match s with
  | EmptyString => EmptyString
  | String c rest => String (f c) (map_chars f rest)
  end.

(** [sorted(xs)] on strings: a stable insertion sort with the
    lexicographic order of the characters. *)
Fixpoint insert_sorted (x : string) (l : list string) : list string :=
  match l with
  | [] => [x]
  | y :: l' =>
      if String.leb x y then x :: y :: l' else y :: insert_sorted x l'
  end.

Fixpoint sorted (l : list string) : list string :=
  match l with
  | [] => []
  | x :: l' => insert_sorted x (sorted l')
  end.

(** [s[-1]] when there is one. *)
Fixpoint last_char (s : string) : option ascii :=
  match s with
  | EmptyString => None
  | String c rest =>
      match last_char rest with
      | Some d => Some d
      | None => Some c
      end
  end.

End PyStr.

(** ** ssml_utils.py: templates *)

Module Templates.
Import Builder PyStr.

(** The [with_pauses] entry: the text is cut at its periods, the first
    piece is spoken, then a break, then the other pieces joined again. *)
Definition with_pauses (text voice : string) : string :=
  if has_char "." text then
    build
      (add_text
         (add_break
            (add_text (__init__ voice None)
               (hd EmptyString (split "." text)))
            "1s")
         (join "." (tl (split "." text))))
  else build (add_text (__init__ voice None) text).

(** [SSML_TEMPLATES], in the order the dict literal lists its keys. *)
Definition SSML_TEMPLATES : list (string * (string -> string -> string)) :=
  [("slow_speech", fun text voice =>
      build (add_prosody (__init__ voice None) text (Some "slow") None None));
   ("fast_speech", fun text voice =>
      build (add_prosody (__init__ voice None) text (Some "fast") None None));
   ("whisper", fun text voice =>
      build (add_prosody (__init__ voice None) text (Some "slow") None
               (Some "x-soft")));
   ("excited", fun text voice =>
      build (add_prosody (__init__ voice None) text (Some "fast")
               (Some "high") (Some "loud")));
   ("calm", fun text voice =>
      build (add_prosody (__init__ voice None) text (Some "slow")
               (Some "low") (Some "soft")));
   ("emphasis_strong", fun text voice =>
      build (add_emphasis (__init__ voice None) text "strong"));
   ("with_pauses", with_pauses)].

Fixpoint lookup_template (name : string)
    (table : list (string * (string -> string -> string)))
    : option (string -> string -> string) :=
  match table with
  | [] => None
  | (k, f) :: rest =>
      if String.eqb name k then Some f else lookup_template name rest
  end.

(** [create_ssml_from_template]. *)
Definition create_ssml_from_template (template_name text voice : string)
    : result string :=
  match lookup_template template_name SSML_TEMPLATES with
  | None =>
      let available := join ", " (map fst SSML_TEMPLATES) in
      Raise (ValueError ("Unknown template '" +++ template_name
                         +++ "'. Available: " +++ available))
  | Some f => Return (f text voice)
  end.

End Templates.

(** ** tts_client.py: markup helpers and synthesize_ssml *)

Module Markup.
Import Builder PyStr Client.

(** The language tag the [create_*] methods compute:
    [voice.split('-')[0] + '-' + voice.split('-')[1] if '-' in voice
     else 'en-US']. *)
Definition voice_lang (voice : string) : result string :=
  if has_char "-" voice then
    bind (getitem_list (split "-" voice) 0) (fun p0 =>
    bind (getitem_list (split "-" voice) 1) (fun p1 =>
    Return (p0 +++ "-" +++ p1)))
  else Return "en-US".

(** The opening of the document, shared by the three f-strings. *)
Definition speak_open (lang voice : string) : string :=
  "<speak " +++ attr "version" "1.0" +++ " "
  +++ attr "xmlns" "http://www.w3.org/2001/10/synthesis" +++ " "
  +++ attr "xml:lang" lang +++ ">" +++ newline
  +++ "    <voice " +++ attr "name" voice +++ ">" +++ newline.

Definition speak_close : string :=
  "    </voice>" +++ newline +++ "</speak>".

(** [TTSClient.create_ssml]. *)
Definition create_ssml (text voice rate pitch volume : string)
    : result string :=
  bind (voice_lang voice) (fun lang =>
    Return (speak_open lang voice
            +++ "        <prosody " +++ attr "rate" rate +++ " "
            +++ attr "pitch" pitch +++ " " +++ attr "volume" volume
            +++ ">" +++ newline
            +++ "            " +++ text +++ newline
            +++ "        </prosody>" +++ newline
            +++ speak_close)).

(** [TTSClient.create_emphasis_ssml]. *)
Definition create_emphasis_ssml (text voice emphasis_level : string)
    : result string :=
  bind (voice_lang voice) (fun lang =>
    Return (speak_open lang voice
            +++ "        <emphasis " +++ attr "level" emphasis_level +++ ">"
            +++ text +++ "</emphasis>" +++ newline
            +++ speak_close)).

(** [TTSClient.create_break_ssml]. *)
Definition create_break_ssml (text_parts : list string)
    (voice break_time : string) : result string :=
  bind (voice_lang voice) (fun lang =>
    let content := join ("<break " +++ attr "time" break_time +++ "/>")
                     text_parts in
    Return (speak_open lang voice
            +++ "        " +++ content +++ newline
            +++ speak_close)).

(** The builder operations that write the parts with a break between
    each two. *)
Fixpoint parts_with_breaks (text_parts : list string) (break_time : string)
    : list op :=
  match text_parts with
  | [] => []
  | [p] => [AddText p]
  | p :: rest =>
      AddText p :: AddBreak break_time :: parts_with_breaks rest break_time
  end.

(** [TTSClient.synthesize_ssml]: [synthesize_text] with [use_ssml=True]. *)
Definition synthesize_ssml (ssml_errors : string -> list string)
    (st : stream) (ssml voice : string) : result bytes :=
  synthesize_text ssml_errors st ssml voice true.

End Markup.

(** ** voice.py *)

Module Voices.
Import PyStr.

Record Voice := mkVoice {
  name : string;
  display_name : string;
  locale : string;
  gender : string
}.

(** [Voice.__post_init__]. *)
Definition __post_init__ (self : Voice) : result unit :=
  if negb (truthy (name self)) then
    Raise (ValueError "Voice name cannot be empty")
  else if negb (truthy (display_name self)) then
    Raise (ValueError "Voice display_name cannot be empty")
  else if negb (truthy (locale self)) then
    Raise (ValueError "Voice locale cannot be empty")
  else if negb (truthy (gender self)) then
    Raise (ValueError "Voice gender cannot be empty")
  else Return tt.

(** Construction of the dataclass. *)
Definition new (fields : Voice) : result Voice :=
  match __post_init__ fields with
  | Return _ => Return fields
  | Raise e => Raise e
  end.

(** [Voice.language_code]: [self.locale.split('-')[0]]. *)
Definition language_code (self : Voice) : string :=
  hd EmptyString (split "-" (locale self)).

(** [Voice.country_code]. *)
Definition country_code (self : Voice) : option string :=
  match split "-" (locale self) with
  | _ :: p1 :: _ => Some p1
  | _ => None
  end.

(** [Voice.matches_language]. *)
Definition matches_language (self : Voice) (language : string) : bool :=
  if String.eqb language (locale self) then true
  else if String.eqb language (language_code self) then true
  else false.

(** [VoiceManager.filter_by_language]. *)
Definition filter_by_language (voices : list Voice) (language : string)
    : list Voice :=
  List.filter (fun voice => matches_language voice language) voices.

(** [VoiceManager.find_voice_by_name]. *)
Fixpoint find_voice_by_name (voices : list Voice) (n : string)
    : option Voice :=
  match voices with
  | [] => None
  | voice :: rest =>
      if String.eqb (name voice) n then Some voice
      else find_voice_by_name rest n
  end.

(** The loop that fills the set in [get_languages] and [get_locales]. *)
Definition collect (key : Voice -> string) (voices : list Voice)
    : gset string :=
  foldl (fun acc voice => acc ∪ {[key voice]}) ∅ voices.

(** [VoiceManager.get_languages]: [sorted(list(languages))]. *)
Definition get_languages (voices : list Voice) : list string :=
  sorted (elements (collect language_code voices)).

(** [VoiceManager.get_locales]. *)
Definition get_locales (voices : list Voice) : list string :=
  sorted (elements (collect locale voices)).

End Voices.

(** ** tts_client.py: the voice list *)

Module VoiceList.
Import PyStr Client Voices.

(** One entry of [edge_tts.list_voices()] becomes a [Voice]; a missing key
    is a [KeyError], an empty value a [ValueError] of [__post_init__]. *)
Definition voice_of_entry (entry : gmap string string) : result Voice :=
  bind (getitem_dict entry "ShortName") (fun short_name =>
  bind (getitem_dict entry "FriendlyName") (fun friendly_name =>
  bind (getitem_dict entry "Locale") (fun loc =>
  bind (getitem_dict entry "Gender") (fun gen =>
    Voices.new (mkVoice short_name friendly_name loc gen))))).

(** The list comprehension over [voices_data]. *)
Fixpoint voices_of_entries (entries : list (gmap string string))
    : result (list Voice) :=
  match entries with
  | [] => Return []
  | entry :: rest =>
      bind (voice_of_entry entry) (fun voice =>
      bind (voices_of_entries rest) (fun voices =>
        Return (voice :: voices)))
  end.

(** The outcome of a method on the state [self._voices_cache]: its
    result, the cache afterwards, and whether [edge_tts.list_voices()]
    was awaited. *)
Record outcome (A : Type) := Outcome {
  value : result A;
  cache : option (list Voice);
  fetched : bool
}.
Arguments Outcome {A} value cache fetched.
Arguments value {A} o.
Arguments cache {A} o.
Arguments fetched {A} o.

(** [TTSClient.list_voices]; [service] is what [edge_tts.list_voices()]
    would return or raise if awaited now. *)
Definition list_voices (_voices_cache : option (list Voice))
    (service : result (list (gmap string string)))
    : outcome (list Voice) :=
  match _voices_cache with
  | Some voices => Outcome (Return voices) _voices_cache false
  | None =>
      match bind service voices_of_entries with
      | Return voices => Outcome (Return voices) (Some voices) true
      | Raise e =>
          Outcome (Raise (TTSError ("Failed to list voices: " +++ str_exn e)))
            None true
      end
  end.

(** [TTSClient.clear_voice_cache]. *)
Definition clear_voice_cache (_voices_cache : option (list Voice))
    : option (list Voice) := None.

(** The test of the loop in [get_voices_by_language]. *)
Definition locale_selected (voice : Voice) (language : string) : bool :=
  startswith (locale voice) language
  || String.eqb (hd EmptyString (split "-" (locale voice))) language.

(** [TTSClient.get_voices_by_language]. *)
Definition get_voices_by_language (_voices_cache : option (list Voice))
    (service : result (list (gmap string string))) (language : string)
    : outcome (list Voice) :=
  let listed := list_voices _voices_cache service in
  Outcome
    (try_except
       (bind (value listed) (fun all_voices =>
          Return (List.filter (fun voice => locale_selected voice language)
                    all_voices)))
       (fun e => Raise (TTSError ("Failed to filter voices by language "
                                  +++ language +++ ": " +++ str_exn e))))
    (cache listed) (fetched listed).

End VoiceList.

(** ** utils.py: get_safe_filename *)

Module Utils.
Import PyStr.

Definition safe_chars : string :=
  "abcdefghijklmnopqrstuvwxyzABCDEFGHIJKLMNOPQRSTUVWXYZ0123456789-_. ".

(** [get_safe_filename(text, max_length)]. *)
Definition get_safe_filename (text : string) (max_length : Z) : string :=
  let filename :=
    map_chars (fun c => if has_char c safe_chars then c else "_"%char) text in
  let filename :=
    if (Z.of_nat (String.length filename) >? max_length)%Z
    then slice_to max_length filename else filename in
  let filename := rstrip ". " filename in
  if negb (truthy filename) then "output" else filename.

(** Every character of [s] satisfies [p]. *)
Fixpoint all_chars (p : ascii -> bool) (s : string) : bool :=
  match s with
  | EmptyString => true
  | String c rest => p c && all_chars p rest
  end.

End Utils.

(** ** config_manager.py: presets *)

Module Presets.
Import Config.

(** The keyword arguments of each [TTSConfig(...)] of [PRESETS] over the
    field defaults, in the order of the dict literal. *)
Definition PRESET_FIELDS : list (string * TTSConfig) :=
  [("default", defaults);
   ("fast",
    mkConfig "en-US-AriaNeural" "mp3" "./output" true true 3 30000
      "+20%" "0%" "100%" false 10 5);
   ("slow",
    mkConfig "en-US-AriaNeural" "mp3" "./output" true true 3 30000
      "-20%" "0%" "100%" false 3 2);
   ("high_quality",
    mkConfig "en-US-AriaNeural" "wav" "./output" true true 5 30000
      "0%" "0%" "100%" false 5 3);
   ("batch_processing",
    mkConfig "en-US-AriaNeural" "mp3" "./output" true true 3 30000
      "0%" "0%" "100%" false 20 8);
   ("whisper",
    mkConfig "en-US-AriaNeural" "mp3" "./output" true true 3 30000
      "-10%" "-5%" "50%" false 5 3);
   ("excited",
    mkConfig "en-US-AriaNeural" "mp3" "./output" true true 3 30000
      "+15%" "+10%" "110%" false 5 3)].

(** [ConfigManager.PRESETS]: each value is constructed when the class body
    runs. *)
Definition PRESETS : list (string * result TTSConfig) :=
  map (fun '(k, fields) => (k, Config.new fields)) PRESET_FIELDS.

(** [ConfigManager.list_presets]. *)
Definition list_presets : list string := map fst PRESETS.

Fixpoint lookup_preset (preset_name : string)
    (table : list (string * result TTSConfig)) : option (result TTSConfig) :=
  match table with
  | [] => None
  | (k, c) :: rest =>
      if String.eqb preset_name k then Some c else lookup_preset preset_name rest
  end.

(** [ConfigManager.get_preset]. *)
Definition get_preset (preset_name : string) : result TTSConfig :=
  match lookup_preset preset_name PRESETS with
  | Some c => c
  | None =>
      Raise (ValueError ("Unknown preset '" +++ preset_name
                         +++ "'. Available: " +++ join ", " list_presets))
  end.

End Presets.

(** ** audio_player.py *)

Module Audio.

(** A call returns or raises [AudioError(msg)]. *)
Inductive played (A : Type) :=
| Done (a : A)
| AudioError (msg : string).
Arguments Done {A} a.
Arguments AudioError {A} msg.

Record AudioPlayer := mkPlayer {
  preferred_backend : option string;
  _available_backends : list string
}.

(** [_detect_backends]: which of the two imports succeed. *)
Definition _detect_backends (has_pygame has_playsound : bool) : list string :=
  (if has_pygame then ["pygame"] else [])
  ++ (if has_playsound then ["playsound"] else []).

(** [AudioPlayer.__init__]. *)
Definition __init__ (preferred : option string)
    (has_pygame has_playsound : bool) : played AudioPlayer :=
  match _detect_backends has_pygame has_playsound with
  | [] =>
      AudioError
        "No audio backends available. Please install pygame or playsound."
  | backends => Done (mkPlayer preferred backends)
  end.

(** [x in xs] on a list of strings. *)
Definition mem (x : string) (xs : list string) : bool :=
  existsb (String.eqb x) xs.

(** [AudioPlayer._get_backend_to_use]. *)
Definition _get_backend_to_use (self : AudioPlayer) : played string :=
  match _available_backends self with
  | [] => AudioError "No audio backends available"
  | _ :: _ =>
      match preferred_backend self with
      | Some p =>
          if truthy p && mem p (_available_backends self) then Done p
          else if mem "pygame" (_available_backends self) then Done "pygame"
          else if mem "playsound" (_available_backends self)
          then Done "playsound"
          else AudioError "No suitable audio backend found"
      | None =>
          if mem "pygame" (_available_backends self) then Done "pygame"
          else if mem "playsound" (_available_backends self)
          then Done "playsound"
          else AudioError "No suitable audio backend found"
      end
  end.

Section Playback.

(** [os.path.exists]. *)
Variable file_exists : string -> bool.

(** What goes wrong inside [_play_with_pygame] / [_play_with_playsound]
    for a file: [str(e)] of the exception, or nothing. *)
Variable pygame_fault : string -> option string.
Variable playsound_fault : string -> option string.

Definition _play_with_pygame (filename : string) : played unit :=
  match pygame_fault filename with
  | Some msg => AudioError ("Pygame playback failed: " +++ msg)
  | None => Done tt
  end.

Definition _play_with_playsound (filename : string) : played unit :=
  match playsound_fault filename with
  | Some msg => AudioError ("Playsound playback failed: " +++ msg)
  | None => Done tt
  end.

(** The [if backend == ...] chain of [play_file]; [None] when the chain
    has no branch for the name. *)
Definition play_with (backend filename : string) : option (played unit) :=
  if String.eqb backend "pygame" then Some (_play_with_pygame filename)
  else if String.eqb backend "playsound"
  then Some (_play_with_playsound filename)
  else None.

(** [AudioPlayer.play_file]: the result and the backends that were asked
    to play, in order. *)
Definition play_file (self : AudioPlayer) (filename : string)
    : played unit * list string :=
  if negb (file_exists filename) then
    (AudioError ("Audio file not found: " +++ filename), [])
  else
    match _get_backend_to_use self with
    | AudioError msg => (AudioError msg, [])
    | Done backend =>
        let first :=
          match play_with backend filename with
          | Some r => (r, [backend])
          | None => (AudioError ("Unknown backend: " +++ backend), [])
          end in
        match fst first with
        | Done _ => first
        | AudioError msg =>
            let fallback_backends :=
              List.filter (fun b => negb (String.eqb b backend))
                (_available_backends self) in
            match fallback_backends with
            | fallback :: _ =>
                match play_with fallback filename with
                | Some _ => (AudioError msg, snd first ++ [fallback])
                | None => (AudioError msg, snd first)
                end
            | [] => (AudioError msg, snd first)
            end
        end
    end.

End Playback.

End Audio.

(** ** tts_client.py: saving audio *)

Module Files.
Import Client.

Section Saving.

(** Why opening a file for writing fails, if it does. *)
Variable open_fault : string -> option string.

(** [filename_template.format(n)]. *)
Variable format : string -> nat -> result string.

(** The files written so far. *)
Definition files : Type := gmap string bytes.

(** [TTSClient.save_audio]. *)
Definition save_audio (fs : files) (audio_data : bytes) (filename : string)
    : result unit * files :=
  match open_fault filename with
  | Some msg =>
      (Raise (TTSError ("Failed to save audio to " +++ filename +++ ": "
                        +++ msg)), fs)
  | None => (Return tt, <[filename := audio_data]> fs)
  end.

(** The loop of [batch_save_audio] from item [i] on. *)
Fixpoint save_loop (filename_template : string) (i : nat)
    (audio_data_list : list bytes) (saved_files : list string) (fs : files)
    : result (list string) * files :=
  match audio_data_list with
  | [] => (Return saved_files, fs)
  | audio_data :: rest =>
      let failed e fs' :=
        (Raise (TTSError ("Failed to save batch item " +++ str_of_nat (i + 1)
                          +++ ": " +++ str_exn e)), fs') in
      match format filename_template (i + 1) with
      | Raise e => failed e fs
      | Return filename =>
          match save_audio fs audio_data filename with
          | (Raise e, fs') => failed e fs'
          | (Return _, fs') =>
              save_loop filename_template (S i) rest
                (saved_files ++ [filename]) fs'
          end
      end
  end.

(** [TTSClient.batch_save_audio]. *)
Definition batch_save_audio (fs : files) (audio_data_list : list bytes)
    (filename_template : string) : result (list string) * files :=
  save_loop filename_template 0 audio_data_list [] fs.

End Saving.

End Files.

(** ** config_manager.py: dictionaries *)

Module ConfigDict.
Import Config.

(** A value of a configuration dictionary (as read from JSON or YAML). *)
Inductive value :=
| VStr (s : string)
| VInt (n : Z)
| VBool (b : bool)
| VOther.

(** [TTSConfig.to_dict]: [asdict(self)]. *)
Definition to_dict (self : TTSConfig) : gmap string value :=
  <["default_voice" := VStr (default_voice self)]>
  (<["output_format" := VStr (output_format self)]>
  (<["output_directory" := VStr (output_directory self)]>
  (<["auto_play" := VBool (auto_play self)]>
  (<["cache_voices" := VBool (cache_voices self)]>
  (<["max_retries" := VInt (max_retries self)]>
  (<["timeout" := VInt (timeout self)]>
  (<["rate" := VStr (rate self)]>
  (<["pitch" := VStr (pitch self)]>
  (<["volume" := VStr (volume self)]>
  (<["ssml" := VBool (ssml self)]>
  (<["batch_size" := VInt (batch_size self)]>
  (<["max_concurrent" := VInt (max_concurrent self)]> ∅)))))))))))).

(** The keyword argument for a field: the entry of the dictionary, or the
    field default when the key is absent.  [None] when the entry is not of
    the field's declared type (the dataclass would store it unchecked; the
    typed record cannot). *)
Definition str_arg (d : gmap string value) (k default : string)
    : option string :=
  match d !! k with
  | None => Some default
  | Some (VStr s) => Some s
  | Some _ => None
  end.

Definition int_arg (d : gmap string value) (k : string) (default : Z)
    : option Z :=
  match d !! k with
  | None => Some default
  | Some (VInt n) => Some n
  | Some _ => None
  end.

Definition bool_arg (d : gmap string value) (k : string) (default : bool)
    : option bool :=
  match d !! k with
  | None => Some default
  | Some (VBool b) => Some b
  | Some _ => None
  end.

(** [TTSConfig.from_dict]: the keys that are not field names are dropped
    and the others are passed to the constructor. *)
Definition from_dict (config_dict : gmap string value)
    : option (result TTSConfig) :=
  v1 ← str_arg config_dict "default_voice" (default_voice defaults);
  v2 ← str_arg config_dict "output_format" (output_format defaults);
  v3 ← str_arg config_dict "output_directory" (output_directory defaults);
  v4 ← bool_arg config_dict "auto_play" (auto_play defaults);
  v5 ← bool_arg config_dict "cache_voices" (cache_voices defaults);
  v6 ← int_arg config_dict "max_retries" (max_retries defaults);
  v7 ← int_arg config_dict "timeout" (timeout defaults);
  v8 ← str_arg config_dict "rate" (rate defaults);
  v9 ← str_arg config_dict "pitch" (pitch defaults);
  v10 ← str_arg config_dict "volume" (volume defaults);
  v11 ← bool_arg config_dict "ssml" (ssml defaults);
  v12 ← int_arg config_dict "batch_size" (batch_size defaults);
  v13 ← int_arg config_dict "max_concurrent" (max_concurrent defaults);
  Some (Config.new (mkConfig v1 v2 v3 v4 v5 v6 v7 v8 v9 v10 v11 v12 v13)).

(** The names of the dataclass fields. *)
Definition field_names : list string :=
  ["default_voice"; "output_format"; "output_directory"; "auto_play";
   "cache_voices"; "max_retries"; "timeout"; "rate"; "pitch"; "volume";
   "ssml"; "batch_size"; "max_concurrent"].

End ConfigDict.

(** ** multilingual_demo.py: one language *)

Module Demo.
Import Client.

(** The entries of a language configuration that the function reads. *)
Record language_config := mkLanguage {
  code : string;
  lang_name : string;
  text : string;
  voice : string;
  alt_voice : option string
}.

Section Generate.

(** The stream the service serves to the [n]-th request of the call (0
    for the primary voice, 1 for the alternative), with this text and
    voice. *)
Variable service : nat -> string -> string -> stream.

(** Why opening a file for writing fails, if it does. *)
Variable open_fault : string -> option string.

(** [os.path.join]. *)
Variable path_join : string -> string -> string.

(** [client.synthesize_text(text, voice)], with [use_ssml] left at its
    default. *)
Definition synthesize (n : nat) (text voice : string) : result bytes :=
  synthesize_text (fun _ => []) (service n text voice) text voice false.

(** The nested [try] blocks that pick the voice: the audio, and the voices
    asked, in order. *)
Definition pick_voice (cfg : language_config) : result bytes * list string :=
  match synthesize 0 (text cfg) (voice cfg) with
  | Return audio_data => (Return audio_data, [voice cfg])
  | Raise (TTSError m) =>
      match alt_voice cfg with
      | Some alt =>
          if truthy alt then
            (synthesize 1 (text cfg) alt, [voice cfg; alt])
          else (Raise (TTSError m), [voice cfg])
      | None => (Raise (TTSError m), [voice cfg])
      end
  | Raise e => (Raise e, [voice cfg])
  end.

(** [generate_audio_for_language] with [play_audio=False]: the value
    returned, the files afterwards and the voices asked. *)
Definition generate_audio_for_language (fs : gmap string bytes)
    (cfg : language_config) (output_dir : string) (timestamp : nat)
    : bool * gmap string bytes * list string :=
  let '(picked, asked) := pick_voice cfg in
  match picked with
  | Raise _ => (false, fs, asked)
  | Return audio_data =>
      let lang_prefix := hd EmptyString (split "-" (code cfg)) in
      let filename :=
        "multilingual_" +++ lang_prefix +++ "_python_"
        +++ str_of_nat timestamp +++ ".mp3" in
      let output_path := path_join output_dir filename in
      match Files.save_audio open_fault fs audio_data output_path with
      | (Return _, fs') => (true, fs', asked)
      | (Raise _, fs') => (false, fs', asked)
      end
  end.

End Generate.

End Demo.

(** ** utils.py: synthesize_and_save *)

Module SaveAndPlay.
Import Client.

(** What [synthesize_and_save] raises: an exception of the client, or an
    [AudioError] of the player.  Its three [except] clauses print and
    re-raise. *)
Inductive failure :=
| FromClient (e : exn)
| FromPlayer (msg : string).

Inductive ending :=
| Finished
| Failed (f : failure).

Section SynthesizeAndSave.

Variable service : string -> string -> stream.
Variable open_fault : string -> option string.
Variable has_pygame has_playsound : bool.
Variable pygame_fault playsound_fault : string -> option string.

(** [synthesize_and_save(client, text, voice, output_file, play_audio)]:
    how it ends, the files afterwards, and the backends asked to play. *)
Definition synthesize_and_save (fs : gmap string bytes)
    (text voice output_file : string) (play_audio : bool)
    : ending * gmap string bytes * list string :=
  match synthesize_text (fun _ => []) (service text voice) text voice false
  with
  | Raise e => (Failed (FromClient e), fs, [])
  | Return audio_data =>
      match Files.save_audio open_fault fs audio_data output_file with
      | (Raise e, fs') => (Failed (FromClient e), fs', [])
      | (Return _, fs') =>
          if play_audio then
            match Audio.__init__ None has_pygame has_playsound with
            | Audio.AudioError msg => (Failed (FromPlayer msg), fs', [])
            | Audio.Done player =>
                match Audio.play_file
                        (fun f => match fs' !! f with
                                  | Some _ => true
                                  | None => false
                                  end)
                        pygame_fault playsound_fault player output_file
                with
                | (Audio.Done _, asked) => (Finished, fs', asked)
                | (Audio.AudioError msg, asked) =>
                    (Failed (FromPlayer msg), fs', asked)
                end
            end
          else (Finished, fs', [])
      end
  end.

End SynthesizeAndSave.

End SaveAndPlay.

(** ** Elements in document order *)

Module Traversal.
Import XML.

(** An element followed by its descendants, in the order
    [_validate_element] visits them. *)
Fixpoint preorder (e : Element) : list Element :=
  match e with
  | Elem _ _ kids => e :: concat (map preorder kids)
  end.

End Traversal.

(** * Properties *)

Import Builder.

(** ** Segments of a voice identifier *)

Lemma split_nonempty (sep : ascii) (s : string) : split sep s <> [].
Proof.
  destruct s as [|c s]; simpl; [discriminate|].
  destruct (Ascii.eqb c sep); [discriminate|].
  destruct (split sep s); discriminate.
Qed.

Lemma join_cons_char (sep : string) (c : ascii) (seg : string)
    (segs : list string) :
  join sep (String c seg :: segs) = String c (join sep (seg :: segs)).
Proof. destruct segs; reflexivity. Qed.

(** Joining the segments with the separator gives the string back. *)
Lemma join_split (sep : ascii) (s : string) :
  join (String sep EmptyString) (split sep s) = s.
Proof.
  induction s as [|c s IH]; simpl; [reflexivity|].
  pose proof (split_nonempty sep s) as Hne.
  destruct (Ascii.eqb_spec c sep) as [->|Hc];
    destruct (split sep s) as [|seg segs]; try contradiction.
  - change (join (String sep EmptyString) (EmptyString :: seg :: segs))
      with (String sep (join (String sep EmptyString) (seg :: segs))).
    now rewrite IH.
  - now rewrite join_cons_char, IH.
Qed.

(** No segment holds the separator. *)
Lemma split_no_sep (sep : ascii) (s : string) :
  Forall (fun seg => has_char sep seg = false) (split sep s).
Proof.
  induction s as [|c s IH]; simpl.
  - repeat constructor.
  - pose proof (split_nonempty sep s) as Hne.
    destruct (Ascii.eqb_spec c sep) as [->|Hc].
    + constructor; [reflexivity|assumption].
    + destruct (split sep s) as [|seg segs]; [contradiction|].
      inversion IH as [|? ? Hseg Hsegs]; subst.
      constructor; [|assumption].
      simpl. rewrite Hseg.
      destruct (Ascii.eqb_spec c sep); [contradiction|reflexivity].
Qed.

(** C6: without an explicit language the tag of a new builder is made of
    the first two hyphen-delimited segments of the voice identifier, joined
    by a hyphen, when there are at least two segments, and is the default
    [en-US] otherwise.  The segments are those of the identifier: joined by
    hyphens they give it back, and none holds a hyphen. *)
Theorem language_from_voice (v : string) :
  let segs := split "-" v in
  join "-" segs = v /\
  Forall (fun seg => has_char "-" seg = false) segs /\
  (2 <= length segs ->
   exists p0 p1 rest,
     segs = p0 :: p1 :: rest /\ lang (__init__ v None) = p0 +++ "-" +++ p1) /\
  (length segs < 2 -> lang (__init__ v None) = "en-US").
Proof.
  cbv zeta. split; [apply (join_split "-")|].
  split; [apply split_no_sep|].
  unfold __init__, _extract_language; simpl lang.
  destruct (split "-" v) as [|p0 [|p1 rest]]; simpl; split; intros H;
    try lia; try reflexivity.
  exists p0, p1, rest. split; reflexivity.
Qed.

Lemma language_from_voice_witness :
  lang (__init__ "en-US-AriaNeural" None) = "en-US" /\
  lang (__init__ "x" None) = "en-US".
Proof.
  split.
  - destruct (language_from_voice "en-US-AriaNeural") as (_ & _ & H & _).
    destruct H as (p0 & p1 & rest & Hs & Hl); [vm_compute; lia|].
    rewrite Hl. vm_compute in Hs. injection Hs as <- <- _. reflexivity.
  - destruct (language_from_voice "x") as (_ & _ & _ & H).
    apply H. vm_compute. lia.
Defined.

(** ** The builder keeps its language tag *)

Lemma apply_ops_snoc (b : SSMLBuilder) (ops : list op) (o : op) :
  apply_ops b (ops ++ [o]) = apply_op (apply_ops b ops) o.
Proof. unfold apply_ops. now rewrite foldl_app. Qed.

Lemma apply_op_appends (b : SSMLBuilder) (o : op) :
  exists fragment,
    apply_op b o =
    {| voice := voice b; lang := lang b; elements := elements b ++ [fragment] |}.
Proof. destruct o; simpl; eexists; reflexivity. Qed.

(** C9: the language tag of a builder is fixed by [__init__] (the explicit
    argument, or the tag derived from the voice) and every appending
    operation keeps [voice] and [lang] and appends exactly one fragment to
    [elements]; so after any sequence of operations the tag is the one
    set at construction and there is one fragment per operation. *)
Theorem language_fixed_at_construction (v : string) (l : option string)
    (ops : list op) (b : SSMLBuilder) (o : op) :
  let b0 := __init__ v l in
  (l = Some (lang b0) \/ lang b0 = _extract_language v) /\
  elements b0 = [] /\
  (exists fragment,
     apply_op b o =
     {| voice := voice b; lang := lang b;
        elements := elements b ++ [fragment] |}) /\
  lang (apply_ops b0 ops) = lang b0 /\
  voice (apply_ops b0 ops) = v /\
  length (elements (apply_ops b0 ops)) = length ops.
Proof.
  cbv zeta. split.
  { destruct l as [l'|]; simpl; [|now right].
    destruct (truthy l'); [now left|now right]. }
  split; [reflexivity|].
  split; [apply apply_op_appends|].
  induction ops as [|o' ops IH] using rev_ind; [now simpl|].
  rewrite apply_ops_snoc.
  destruct (apply_op_appends (apply_ops (__init__ v l) ops) o') as [f ->].
  destruct IH as (IH1 & IH2 & IH3). simpl.
  rewrite !length_app, IH3. simpl. repeat split; try assumption; lia.
Qed.

(** ** Configuration checks *)

Import Config.

(** C8: constructing a [TTSConfig] raises (a [ValueError]) exactly when
    [max_retries < 0], [timeout <= 0], [default_voice] is empty,
    [batch_size <= 0] or [max_concurrent <= 0]; otherwise the instance is
    constructed with the given fields.  Construction is the only step: no
    client exists, and nothing is synthesized, before it returns. *)
Theorem config_rejected_iff_violation (c : TTSConfig) :
  let violated :=
    ((max_retries c < 0)%Z \/ (timeout c <= 0)%Z \/
     default_voice c = EmptyString \/
     (batch_size c <= 0)%Z \/ (max_concurrent c <= 0)%Z) in
  (violated -> exists msg, Config.new c = Raise (ValueError msg)) /\
  (~ violated -> Config.new c = Return c).
Proof.
  cbv zeta. unfold Config.new, __post_init__, truthy.
  destruct (Z.ltb_spec (max_retries c) 0);
    [split; [eauto|intros H'; exfalso; apply H'; auto]|].
  destruct (Z.leb_spec (timeout c) 0);
    [split; [eauto|intros H'; exfalso; apply H'; auto]|].
  destruct (String.eqb_spec (default_voice c) EmptyString); simpl;
    [split; [eauto|intros H'; exfalso; apply H'; auto]|].
  destruct (Z.leb_spec (batch_size c) 0);
    [split; [eauto|intros H'; exfalso; apply H'; auto 6]|].
  destruct (Z.leb_spec (max_concurrent c) 0);
    [split; [eauto|intros H'; exfalso; apply H'; auto 6]|].
  split; [|reflexivity].
  intros [?|[?|[?|[?|?]]]]; try lia; contradiction.
Qed.

Lemma config_rejected_iff_violation_witness :
  Config.new defaults = Return defaults /\
  exists msg,
    Config.new
      (mkConfig "en-US-AriaNeural" "mp3" "./output" true true 3 30000
         "0%" "0%" "100%" false 0 3) = Raise (ValueError msg).
Proof.
  split.
  - apply (config_rejected_iff_violation defaults). simpl.
    intros [?|[?|[?|[?|?]]]]; try lia; discriminate.
  - apply (config_rejected_iff_violation
             (mkConfig "en-US-AriaNeural" "mp3" "./output" true true 3 30000
                "0%" "0%" "100%" false 0 3)).
    simpl. right; right; right; left. lia.
Defined.

(** ** synthesize_text *)

Import Client.

(** C10: [synthesize_text] never returns an empty byte sequence: whatever
    the stream and the validator do, it returns non-empty audio or raises a
    [TTSError]; and when the stream ends without a chunk of type [audio],
    it raises. *)
Theorem synthesize_text_never_empty (ssml_errors : string -> list string)
    (st : stream) (text voice : string) (use_ssml : bool) :
  match synthesize_text ssml_errors st text voice use_ssml with
  | Return audio_data => audio_data <> []
  | Raise e => exists msg, e = TTSError msg
  end /\
  (failure st = None ->
   Forall (fun c => chunk_type c <> "audio") (chunks st) ->
   exists msg,
     synthesize_text ssml_errors st text voice use_ssml = Raise (TTSError msg)).
Proof.
  assert (Hshape :
    match synthesize_text ssml_errors st text voice use_ssml with
    | Return audio_data => audio_data <> []
    | Raise e => exists msg, e = TTSError msg
    end).
  { unfold synthesize_text, try_except, bind, _validate_ssml.
    destruct use_ssml; [destruct (ssml_errors text); simpl|];
      try (eexists; reflexivity);
      destruct (failure st); try (eexists; reflexivity);
      destruct (collect_audio (chunks st)); try (eexists; reflexivity);
      discriminate. }
  split; [exact Hshape|].
  intros Hend Hnone.
  assert (Hcollect : forall acc, foldl (fun audio_data c =>
             if String.eqb (chunk_type c) "audio"
             then audio_data ++ chunk_data c else audio_data) acc (chunks st)
           = acc).
  { induction Hnone as [|c cs Hc _ IH]; intros acc; simpl; [reflexivity|].
    destruct (String.eqb_spec (chunk_type c) "audio"); [contradiction|].
    apply IH. }
  destruct (synthesize_text ssml_errors st text voice use_ssml) eqn:E;
    [|destruct Hshape as [msg ->]; eauto].
  exfalso. revert E.
  unfold synthesize_text, try_except, bind, _validate_ssml, collect_audio.
  rewrite Hcollect, Hend.
  destruct use_ssml; [destruct (ssml_errors text)|]; discriminate.
Qed.

Lemma synthesize_text_never_empty_witness :
  synthesize_text (fun _ => []) (Stream [Chunk "WordBoundary" []] None)
    "hello" "en-US-AriaNeural" false
  = Raise (TTSError
      "Failed to synthesize text: No audio data generated for text: hello...")
  /\ synthesize_text (fun _ => []) (Stream [Chunk "audio" [x49; x44]] None)
       "hello" "en-US-AriaNeural" false = Return [x49; x44].
Proof.
  split; [|reflexivity].
  destruct (synthesize_text_never_empty (fun _ => [])
              (Stream [Chunk "WordBoundary" []] None)
              "hello" "en-US-AriaNeural" false) as [_ H].
  destruct H as [msg Hmsg]; [reflexivity|repeat constructor; discriminate|].
  reflexivity.
Defined.

(** ** Batch synthesis *)

Section BatchProps.

Variable ssml_errors : string -> list string.
Variable net : nat -> string -> string -> stream.
Variable voice : string.
Variable use_ssml : bool.
Variable texts : list string.

Local Abbreviation call := (Client.call ssml_errors net voice use_ssml).
Local Abbreviation task_result :=
  (Client.task_result ssml_errors net voice use_ssml texts).
Local Abbreviation step := (Client.step ssml_errors net voice use_ssml texts).
Local Abbreviation run := (Client.run ssml_errors net voice use_ssml texts).
Local Abbreviation start := (Client.start texts).
Local Abbreviation first_failed :=
  (Client.first_failed ssml_errors net voice use_ssml texts).
Local Abbreviation consistent :=
  (Client.consistent ssml_errors net voice use_ssml texts).

(** *** Sums over the task list *)

Lemma weigh_insert (f : task -> nat) (ts : list task) (i : nat) (t t' : task) :
  ts !! i = Some t ->
  sum_list_with f (<[i := t']> ts) + f t = sum_list_with f ts + f t'.
Proof.
  revert i. induction ts as [|x ts IH]; intros [|i] H; simpl in *;
    try discriminate.
  - injection H as ->. lia.
  - specialize (IH i H). lia.
Qed.

Lemma weigh_positive (f : task -> nat) (ts : list task) :
  0 < sum_list_with f ts -> exists i t, ts !! i = Some t /\ 0 < f t.
Proof.
  induction ts as [|x ts IH]; simpl; [lia|]. intros H.
  destruct (f x) eqn:E.
  - destruct IH as (i & t & Hi & Ht); [lia|]. exists (S i), t. auto.
  - exists 0, x. simpl. split; [reflexivity|lia].
Qed.

Lemma weigh_lookup (f : task -> nat) (ts : list task) (i : nat) (t : task) :
  ts !! i = Some t -> f t <= sum_list_with f ts.
Proof.
  revert i. induction ts as [|x ts IH]; intros [|i] H; simpl in *;
    try discriminate.
  - injection H as ->. lia.
  - specialize (IH i H). lia.
Qed.

(** *** One move of the event loop *)

Lemma start_consistent (K : Z) (s0 : loop) :
  start K = Return s0 ->
  consistent K s0 /\ work_left s0 = 2 * length texts /\
  raised s0 = None /\ calls s0 = [].
Proof.
  unfold Client.start, Semaphore.new, bind.
  destruct (Z.ltb_spec K 0); [discriminate|].
  intros [= <-]. simpl.
  assert (Hrun : forall l : list string,
            sum_list_with is_running (map (fun _ => Waiting) l) = 0)
    by (induction l; simpl; auto).
  assert (Hwork : forall l : list string,
            sum_list_with moves_left (map (fun _ => Waiting) l) = 2 * length l)
    by (induction l as [|? ? IH]; simpl; [reflexivity|rewrite IH; lia]).
  assert (Hwait : forall (l : list string) i t,
            map (fun _ => Waiting) l !! i = Some t -> t = Waiting).
  { intros l i t. rewrite list_lookup_fmap.
    destruct (l !! i); simpl; congruence. }
  repeat split; simpl; auto.
  - now rewrite length_map.
  - unfold outstanding. simpl. rewrite Hrun. lia.
  - intros i r Hi. apply Hwait in Hi. discriminate.
  - intros i e Hi. apply Hwait in Hi. discriminate.
  - discriminate.
  - apply Hwork.
Qed.

Lemma propagate_some (raised : option exn) (r : result (nat * bytes)) :
  raised <> None -> propagate raised r <> None.
Proof. destruct raised, r; simpl; congruence. Qed.

Lemma lookup_insert_task (ts : list task) (i j : nat) (t new found : task) :
  ts !! i = Some t ->
  <[i := new]> ts !! j = Some found ->
  (i = j /\ found = new) \/ (i <> j /\ ts !! j = Some found).
Proof.
  intros Hi Hj. destruct (decide (i = j)) as [->|Hne].
  - rewrite list_lookup_insert_eq in Hj by (eapply lookup_lt_Some; eauto).
    left. split; congruence.
  - rewrite list_lookup_insert_ne in Hj by exact Hne. auto.
Qed.

Lemma step_consistent (K : Z) (s s' : loop) (ev : event) :
  consistent K s -> step s ev = Some s' ->
  consistent K s' /\ work_left s = S (work_left s').
Proof.
  intros [Hlen Hsem Hslots Hres Hfail Hby] Hstep.
  unfold Client.step in Hstep.
  destruct ev as [i|i]; destruct (tasks s !! i) as [[| |r]|] eqn:Hi;
    try discriminate.
  - unfold Semaphore.acquire in Hstep.
    destruct (Z.ltb_spec 0 (sem s)); [|discriminate].
    injection Hstep as <-.
    pose proof (weigh_insert is_running _ _ _ Running Hi) as Hr.
    pose proof (weigh_insert moves_left _ _ _ Running Hi) as Hw.
    simpl in Hr, Hw. unfold work_left, outstanding in *. simpl.
    split; [|lia].
    constructor; simpl.
    + now rewrite length_insert.
    + lia.
    + unfold outstanding; simpl; lia.
    + intros j r Hj.
      destruct (lookup_insert_task _ _ _ _ _ _ Hi Hj) as [[_ ?]|[_ ?]];
        [discriminate|eauto].
    + intros j e Hj.
      destruct (lookup_insert_task _ _ _ _ _ _ Hi Hj) as [[_ ?]|[_ ?]];
        [discriminate|eauto].
    + intros e He. destruct (Hby e He) as [j Hj]. exists j.
      rewrite list_lookup_insert_ne; [exact Hj|congruence].
  - injection Hstep as <-.
    pose proof (weigh_insert is_running _ _ _ (Finished (task_result i)) Hi)
      as Hr.
    pose proof (weigh_insert moves_left _ _ _ (Finished (task_result i)) Hi)
      as Hw.
    simpl in Hr, Hw. unfold work_left, outstanding, Semaphore.release in *.
    simpl. split; [|lia].
    constructor; simpl.
    + now rewrite length_insert.
    + lia.
    + unfold outstanding; simpl; lia.
    + intros j r Hj.
      destruct (lookup_insert_task _ _ _ _ _ _ Hi Hj) as [[<- ?]|[_ ?]];
        [congruence|eauto].
    + intros j e Hj.
      destruct (lookup_insert_task _ _ _ _ _ _ Hi Hj) as [[<- Heq]|[_ ?]].
      * injection Heq as Heq. rewrite <- Heq.
        destruct (raised s); simpl; discriminate.
      * apply propagate_some. eauto.
    + intros e He. destruct (raised s) as [e0|] eqn:Hraised; simpl in He.
      * injection He as <-. destruct (Hby e0 eq_refl) as [j Hj]. exists j.
        rewrite list_lookup_insert_ne; [exact Hj|congruence].
      * exists i. destruct (task_result i) eqn:Hr'; [discriminate|].
        injection He as <-.
        apply list_lookup_insert_eq. eapply lookup_lt_Some; eauto.
Qed.

Lemma run_consistent (K : Z) (trace : list event) (s s' : loop) :
  consistent K s -> run s trace = Some s' ->
  consistent K s' /\ work_left s = length trace + work_left s'.
Proof.
  revert s. induction trace as [|ev trace IH]; intros s Hs Hrun; simpl in *.
  - injection Hrun as <-. auto.
  - destruct (step s ev) as [s1|] eqn:Hstep; [|discriminate].
    destruct (step_consistent K s s1 ev Hs Hstep) as [Hs1 Hw].
    destruct (IH s1 Hs1 Hrun) as [Hs' Hw']. split; [assumption|lia].
Qed.

(** C4: in every state of a run of [batch_synthesize_concurrent] with limit
    [K], the calls outstanding (started, not yet returned or raised) are at
    most [K], and the semaphore counter, which is [K] minus their number,
    stays between [0] and [K]. *)
Theorem outstanding_calls_bounded (K : Z) (s0 s : loop) (trace : list event) :
  start K = Return s0 ->
  run s0 trace = Some s ->
  (Z.of_nat (outstanding s) <= K)%Z /\
  (0 <= sem s <= K)%Z /\
  (Z.of_nat (outstanding s) = K - sem s)%Z.
Proof.
  intros Hstart Hrun.
  destruct (start_consistent K s0 Hstart) as [H0 _].
  destruct (run_consistent K trace s0 s H0 Hrun) as [[_ Hsem Hslots _ _ _] _].
  lia.
Qed.

(** *** Progress and the exception handed to the caller *)

Lemma gathered_none (ts : list task) :
  gathered ts = None ->
  exists i t, ts !! i = Some t /\ forall x, t <> Finished (Return x).
Proof.
  induction ts as [|t ts IH]; simpl; [discriminate|].
  destruct t as [| |[x|e]]; try (intros _; exists 0; eexists; simpl;
    split; [reflexivity|discriminate]).
  destruct (gathered ts); [discriminate|]. intros _.
  destruct (IH eq_refl) as (i & t & Hi & Ht). exists (S i), t. auto.
Qed.

Lemma gathered_some (ts : list task) (rs : list (nat * bytes)) :
  gathered ts = Some rs ->
  length rs = length ts /\
  forall i x, rs !! i = Some x -> ts !! i = Some (Finished (Return x)).
Proof.
  revert rs. induction ts as [|t ts IH]; simpl; intros rs H.
  - injection H as <-. split; [reflexivity|]. intros i x Hi. discriminate.
  - destruct t as [| |[x|e]]; try discriminate.
    destruct (gathered ts) as [rs'|]; [|discriminate].
    injection H as <-. destruct (IH rs' eq_refl) as [Hlen Hall].
    split; [simpl; lia|]. intros [|i] y Hi; simpl in *; [congruence|eauto].
Qed.

Lemma progress (K : Z) (s : loop) :
  (1 <= K)%Z -> consistent K s -> outcome s = None ->
  exists ev s', step s ev = Some s'.
Proof.
  intros HK [Hlen Hsem Hslots Hres Hfail Hby]. unfold outcome.
  destruct (raised s) eqn:Hraised; [discriminate|].
  destruct (gathered (tasks s)) eqn:Hg; [discriminate|]. intros _.
  destruct (gathered_none _ Hg) as (i & t & Hi & Ht).
  destruct (Nat.eq_dec (outstanding s) 0) as [Hz|Hnz].
  - destruct t as [| |[x|e]].
    + exists (Acquire i). unfold Client.step, Semaphore.acquire. rewrite Hi.
      destruct (Z.ltb_spec 0 (sem s)); [eauto|lia].
    + pose proof (weigh_lookup is_running _ _ _ Hi) as Hle.
      unfold outstanding in Hz. simpl in Hle. lia.
    + exfalso. eapply Ht. reflexivity.
    + exfalso. eapply Hfail; eauto.
  - destruct (weigh_positive is_running (tasks s)) as (j & t' & Hj & Hpos);
      [unfold outstanding in Hnz; lia|].
    destruct t'; simpl in Hpos; try lia.
    exists (Complete j). unfold Client.step. rewrite Hj. eauto.
Qed.

Lemma raised_kept (trace : list event) (s s' : loop) (e : exn) :
  run s trace = Some s' -> raised s = Some e -> raised s' = Some e.
Proof.
  revert s. induction trace as [|ev trace IH]; intros s Hrun He; simpl in *.
  - now injection Hrun as <-.
  - destruct (step s ev) as [s1|] eqn:Hstep; [|discriminate].
    apply (IH s1 Hrun). unfold Client.step in Hstep.
    destruct ev as [i|i]; destruct (tasks s !! i) as [[| |r]|];
      try discriminate.
    + destruct (Semaphore.acquire (sem s)); [|discriminate].
      now injection Hstep as <-.
    + injection Hstep as <-. simpl. now rewrite He.
Qed.

(** The exception handed to the caller is the one of the first call to
    fail, in the order the calls end. *)
Lemma raised_first_failed (K : Z) (trace : list event) (s s' : loop) :
  consistent K s -> run s trace = Some s' -> raised s = None ->
  match first_failed trace with
  | Some i =>
      i < length texts /\
      exists e, task_result i = Raise e /\ raised s' = Some e
  | None => raised s' = None
  end.
Proof.
  revert s. induction trace as [|ev trace IH]; intros s Hs Hrun Hnone;
    simpl in *.
  - now injection Hrun as <-.
  - destruct (step s ev) as [s1|] eqn:Hstep; [|discriminate].
    destruct (step_consistent K s s1 ev Hs Hstep) as [Hs1 _].
    pose proof Hstep as Hstep'. unfold Client.step in Hstep.
    destruct ev as [i|i]; destruct (tasks s !! i) as [[| |r]|] eqn:Hi;
      try discriminate.
    + destruct (Semaphore.acquire (sem s)); [|discriminate].
      injection Hstep as <-. apply (IH _ Hs1 Hrun). exact Hnone.
    + injection Hstep as Hs1eq.
      destruct (task_result i) as [x|e] eqn:Hr.
      * apply (IH _ Hs1 Hrun). rewrite <- Hs1eq. simpl. now rewrite Hnone.
      * split.
        { apply lookup_lt_Some in Hi. now rewrite <- (tasks_per_text _ _ _ _ _ _ _ Hs). }
        exists e. split; [exact Hr|].
        apply (raised_kept trace s1 s' e Hrun).
        rewrite <- Hs1eq. simpl. now rewrite Hnone.
Qed.

(** A run that has not handed anything to the caller can be continued until
    it does. *)
Lemma run_completes (K : Z) (n : nat) (s : loop) :
  (1 <= K)%Z -> consistent K s -> work_left s <= n ->
  exists trace s', run s trace = Some s' /\ outcome s' <> None.
Proof.
  intros HK. revert s. induction n as [|n IH]; intros s Hs Hn;
    destruct (outcome s) eqn:Ho;
    try (exists [], s; simpl; split; [reflexivity|congruence]);
    destruct (progress K s HK Hs Ho) as (ev & s1 & Hstep);
    destruct (step_consistent K s s1 ev Hs Hstep) as [Hs1 Hw]; [lia|].
  destruct (IH s1 Hs1) as (trace & s' & Hrun & Hout); [lia|].
  exists (ev :: trace), s'. simpl. rewrite Hstep. auto.
Qed.

(** *** Results in input order *)

Lemma sort_by_index_sorted (k : nat) (rs : list (nat * bytes)) :
  (forall i x, rs !! i = Some x -> fst x = k + i) ->
  sort_by_index rs = rs.
Proof.
  revert k. induction rs as [|x rs IH]; intros k H; simpl; [reflexivity|].
  rewrite (IH (S k)).
  - destruct rs as [|y rs]; simpl; [reflexivity|].
    pose proof (H 0 x eq_refl) as Hx. pose proof (H 1 y eq_refl) as Hy.
    destruct (Nat.leb_spec (fst x) (fst y)); [reflexivity|lia].
  - intros i y Hi. rewrite (H (S i) y Hi). lia.
Qed.

Lemma task_result_return (i : nat) (x : nat * bytes) :
  task_result i = Return x ->
  exists text, texts !! i = Some text /\ call i text = Return (snd x) /\
               fst x = i.
Proof.
  unfold Client.task_result, try_except, bind.
  destruct (texts !! i) as [text|]; [|discriminate].
  destruct (call i text) as [a|e] eqn:Hc; [|discriminate].
  intros [= <-]. exists text. simpl. auto.
Qed.

Lemma task_result_raise (i : nat) (e' : exn) :
  i < length texts -> task_result i = Raise e' ->
  exists text e, texts !! i = Some text /\ call i text = Raise e /\
    e' = TTSError ("Failed to synthesize concurrent item "
                   +++ str_of_nat (i + 1) +++ ": " +++ str_exn e).
Proof.
  intros Hi. unfold Client.task_result, try_except, bind.
  destruct (lookup_lt_is_Some_2 texts i Hi) as [text ->].
  destruct (call i text) as [a|e] eqn:Hc; [discriminate|].
  intros [= <-]. exists text, e. auto.
Qed.

(** C1: with a limit [K >= 1] and every call succeeding,
    [batch_synthesize_concurrent] returns, in whatever order the event loop
    lets the tasks acquire the semaphore and their calls end, a list as long
    as [texts] whose element [i] is the audio the call for [texts[i]]
    returned.  Every run is at most [2 * len(texts)] moves long, can be
    continued while the caller has nothing, and some run gives the list. *)
Theorem concurrent_results_in_input_order (K : Z) :
  (1 <= K)%Z ->
  (forall i text, texts !! i = Some text ->
                  exists audio, call i text = Return audio) ->
  exists s0, start K = Return s0 /\
    (forall trace s, run s0 trace = Some s ->
       length trace <= 2 * length texts /\
       (outcome s = None -> exists ev s', step s ev = Some s') /\
       (forall r, outcome s = Some r ->
          exists out, r = Return out /\ length out = length texts /\
            forall i text, texts !! i = Some text ->
              exists audio, out !! i = Some audio /\
                            call i text = Return audio)) /\
    (exists trace s out, run s0 trace = Some s /\ outcome s = Some (Return out)).
Proof.
  intros HK Hok.
  assert (Hstart : exists s0, start K = Return s0).
  { unfold Client.start, Semaphore.new, bind.
    destruct (Z.ltb_spec K 0); [lia|eauto]. }
  destruct Hstart as [s0 Hstart]. exists s0. split; [exact Hstart|].
  destruct (start_consistent K s0 Hstart) as (H0 & Hw0 & Hr0 & _).
  assert (Hruns : forall trace s, run s0 trace = Some s ->
     length trace <= 2 * length texts /\
     (outcome s = None -> exists ev s', step s ev = Some s') /\
     (forall r, outcome s = Some r ->
        exists out, r = Return out /\ length out = length texts /\
          forall i text, texts !! i = Some text ->
            exists audio, out !! i = Some audio /\
                          call i text = Return audio)).
  { intros trace s Hrun.
    destruct (run_consistent K trace s0 s H0 Hrun) as [Hs Hw].
    split; [lia|]. split; [apply (progress K s HK Hs)|].
    intros r Hr. unfold outcome in Hr.
    destruct Hs as [Hlen Hsem Hslots Hres Hfail Hby].
    destruct (raised s) as [e|] eqn:Hraised.
    { exfalso. destruct (Hby e eq_refl) as [i Hi].
      pose proof (Hres i _ Hi) as Hri. symmetry in Hri.
      apply lookup_lt_Some in Hi. rewrite Hlen in Hi.
      destruct (task_result_raise i e Hi Hri) as (text & e' & Ht & Hc & _).
      destruct (Hok i text Ht) as [a Ha]. congruence. }
    destruct (gathered (tasks s)) as [rs|] eqn:Hg; [|discriminate].
    injection Hr as <-.
    destruct (gathered_some _ _ Hg) as [Hrlen Hrs].
    assert (Hidx : forall i x, rs !! i = Some x ->
              fst x = i /\ exists text, texts !! i = Some text /\
                                        call i text = Return (snd x)).
    { intros i x Hi. pose proof (Hres i _ (Hrs i x Hi)) as Hri.
      symmetry in Hri.
      destruct (task_result_return i x Hri) as (text & ? & ? & ?). eauto. }
    rewrite (sort_by_index_sorted 0 rs)
      by (intros i x Hi; destruct (Hidx i x Hi); lia).
    eexists. split; [reflexivity|]. split.
    - rewrite length_map. lia.
    - intros i text Ht.
      assert (Hi : i < length rs)
        by (apply lookup_lt_Some in Ht; lia).
      destruct (lookup_lt_is_Some_2 rs i Hi) as [x Hx].
      destruct (Hidx i x Hx) as (_ & text' & Ht' & Hc).
      exists (snd x). rewrite list_lookup_fmap, Hx. split; [reflexivity|].
      congruence. }
  split; [exact Hruns|].
  destruct (run_completes K (work_left s0) s0 HK H0 (Nat.le_refl _))
    as (trace & s & Hrun & Hout).
  destruct (outcome s) as [r|] eqn:Hr; [|congruence].
  destruct (Hruns trace s Hrun) as (_ & _ & Hfin).
  destruct (Hfin r Hr) as (out & -> & _). eauto.
Qed.

(** *** Failures *)

Lemma batch_loop_fails (ts : list string) (i0 j : nat) (results : list bytes)
    (cs : list nat) (text : string) (e : exn) :
  ts !! j = Some text ->
  call (i0 + j) text = Raise e ->
  (forall i t, i < j -> ts !! i = Some t ->
               exists audio, call (i0 + i) t = Return audio) ->
  batch_loop ssml_errors net voice use_ssml i0 ts results cs =
  (Raise (TTSError ("Failed to synthesize batch item "
                    +++ str_of_nat (i0 + j + 1) +++ ": " +++ str_exn e)),
   cs ++ seq i0 (S j)).
Proof.
  revert i0 j results cs.
  induction ts as [|t ts IH]; intros i0 [|j] results cs Hj Hc Hbefore;
    simpl in Hj; try discriminate.
  - injection Hj as ->. simpl. rewrite Nat.add_0_r in *. now rewrite Hc.
  - destruct (Hbefore 0 t) as [audio Ha]; [lia|reflexivity|].
    rewrite Nat.add_0_r in Ha. cbn [batch_loop]. rewrite Ha.
    rewrite (IH (S i0) j _ _ Hj).
    + replace (S i0 + j + 1) with (i0 + S j + 1) by lia.
      rewrite <- app_assoc. reflexivity.
    + now replace (S i0 + j) with (i0 + S j) by lia.
    + intros i t' Hi Ht'. replace (S i0 + i) with (i0 + S i) by lia.
      apply (Hbefore (S i) t'); [lia|exact Ht'].
Qed.

(** C2 (amended): when the call for unit [j] fails and the calls for all
    earlier units succeed, [batch_synthesize_text] raises one [TTSError]
    naming item [j+1] with the message of the failure, after calling units
    [0..j] only, and returns nothing.  [batch_synthesize_concurrent] (limit
    [K >= 1]) returns no list either: what its caller gets is the
    [TTSError] naming item [i+1] with the message of the failure of the
    unit [i] whose call is the first to fail in the order the calls end;
    that is [j] when no other call fails.  Every run is bounded, can be
    continued while the caller has nothing, and some run raises. *)
Theorem batch_failure_is_reported (j : nat) (text_j : string) (e_j : exn)
    (K : Z) :
  texts !! j = Some text_j ->
  call j text_j = Raise e_j ->
  (forall i text, i < j -> texts !! i = Some text ->
                  exists audio, call i text = Return audio) ->
  (1 <= K)%Z ->
  batch_synthesize_text ssml_errors net voice use_ssml texts =
    (Raise (TTSError ("Failed to synthesize batch item "
                      +++ str_of_nat (j + 1) +++ ": " +++ str_exn e_j)),
     seq 0 (S j)) /\
  exists s0, start K = Return s0 /\
    (forall trace s, run s0 trace = Some s ->
       length trace <= 2 * length texts /\
       (outcome s = None -> exists ev s', step s ev = Some s') /\
       (forall r, outcome s = Some r ->
          exists i text e,
            first_failed trace = Some i /\
            texts !! i = Some text /\ call i text = Raise e /\
            r = Raise (TTSError ("Failed to synthesize concurrent item "
                                 +++ str_of_nat (i + 1) +++ ": "
                                 +++ str_exn e)) /\
            ((forall i' text' e', texts !! i' = Some text' ->
                call i' text' = Raise e' -> i' = j) -> i = j))) /\
    (exists trace s e, run s0 trace = Some s /\ outcome s = Some (Raise e)).
Proof.
  intros Hj Hcj Hbefore HK. split.
  { unfold batch_synthesize_text.
    apply (batch_loop_fails texts 0 j [] [] text_j e_j Hj Hcj Hbefore). }
  assert (Hstart : exists s0, start K = Return s0).
  { unfold Client.start, Semaphore.new, bind.
    destruct (Z.ltb_spec K 0); [lia|eauto]. }
  destruct Hstart as [s0 Hstart]. exists s0. split; [exact Hstart|].
  destruct (start_consistent K s0 Hstart) as (H0 & Hw0 & Hr0 & _).
  assert (Hruns : forall trace s, run s0 trace = Some s ->
     length trace <= 2 * length texts /\
     (outcome s = None -> exists ev s', step s ev = Some s') /\
     (forall r, outcome s = Some r ->
        exists i text e,
          first_failed trace = Some i /\
          texts !! i = Some text /\ call i text = Raise e /\
          r = Raise (TTSError ("Failed to synthesize concurrent item "
                               +++ str_of_nat (i + 1) +++ ": "
                               +++ str_exn e)) /\
          ((forall i' text' e', texts !! i' = Some text' ->
              call i' text' = Raise e' -> i' = j) -> i = j))).
  { intros trace s Hrun.
    destruct (run_consistent K trace s0 s H0 Hrun) as [Hs Hw].
    split; [lia|]. split; [apply (progress K s HK Hs)|].
    intros r Hr. unfold outcome in Hr.
    pose proof (raised_first_failed K trace s0 s H0 Hrun Hr0) as Hfirst.
    destruct (raised s) as [e'|] eqn:Hraised.
    - injection Hr as <-.
      destruct (first_failed trace) as [i|]; [|discriminate].
      destruct Hfirst as (Hi & e'' & Hres & [= <-]).
      destruct (task_result_raise i e' Hi Hres) as (text & e & Ht & Hc & ->).
      exists i, text, e. repeat split; try assumption.
      intros Honly. apply (Honly i text e Ht Hc).
    - exfalso.
      destruct (gathered (tasks s)) as [rs|] eqn:Hg; [|discriminate].
      destruct (gathered_some _ _ Hg) as [Hrlen Hrs].
      destruct Hs as [Hlen _ _ Hres _ _].
      assert (Hjr : j < length rs)
        by (apply lookup_lt_Some in Hj; lia).
      destruct (lookup_lt_is_Some_2 rs j Hjr) as [x Hx].
      pose proof (Hres j _ (Hrs j x Hx)) as Hrj. symmetry in Hrj.
      destruct (task_result_return j x Hrj) as (text & Ht & Hc & _).
      congruence. }
  split; [exact Hruns|].
  destruct (run_completes K (work_left s0) s0 HK H0 (Nat.le_refl _))
    as (trace & s & Hrun & Hout).
  destruct (outcome s) as [r|] eqn:Hr; [|congruence].
  destruct (Hruns trace s Hrun) as (_ & _ & Hfin).
  destruct (Hfin r Hr) as (i & text & e & _ & _ & _ & -> & _). eauto.
Qed.

(** C7: for the empty list of texts [batch_synthesize_text] returns the
    empty list without calling [synthesize_text], and so does
    [batch_synthesize_concurrent] for every limit the semaphore accepts
    ([K >= 0]): [gather] has no task to run, the caller gets the empty list
    at once, and the event loop has no move to make. *)
Theorem empty_batch_makes_no_call (K : Z) :
  (0 <= K)%Z ->
  batch_synthesize_text ssml_errors net voice use_ssml [] = (Return [], []) /\
  exists s0, Client.start [] K = Return s0 /\
    outcome s0 = Some (Return []) /\
    calls s0 = [] /\
    forall trace s,
      Client.run ssml_errors net voice use_ssml [] s0 trace = Some s ->
      trace = [] /\ s = s0.
Proof.
  intros HK. split; [reflexivity|].
  unfold Client.start, Semaphore.new, bind.
  destruct (Z.ltb_spec K 0); [lia|].
  eexists. split; [reflexivity|]. split; [reflexivity|].
  split; [reflexivity|].
  intros trace s Hrun.
  destruct trace as [|[i|i] trace]; simpl in Hrun; try discriminate.
  injection Hrun as <-. split; reflexivity.
Qed.

End BatchProps.

(** ** Batch synthesis on sample inputs *)

Import Samples.

Lemma concurrent_results_in_input_order_witness :
  exists s0, Client.start ["a"; "b"; "c"] 2 = Return s0 /\
    (forall trace s,
       Client.run no_diagnostics echo_service "en-US-AriaNeural" false
         ["a"; "b"; "c"] s0 trace = Some s ->
       length trace <= 2 * 3 /\
       (outcome s = None ->
        exists ev s',
          Client.step no_diagnostics echo_service "en-US-AriaNeural" false
            ["a"; "b"; "c"] s ev = Some s') /\
       (forall r, outcome s = Some r ->
          exists out, r = Return out /\ length out = 3 /\
            forall i text, ["a"; "b"; "c"] !! i = Some text ->
              exists audio, out !! i = Some audio /\
                Client.call no_diagnostics echo_service "en-US-AriaNeural"
                  false i text = Return audio)) /\
    (exists trace s out,
       Client.run no_diagnostics echo_service "en-US-AriaNeural" false
         ["a"; "b"; "c"] s0 trace = Some s /\
       outcome s = Some (Return out)).
Proof.
  apply (concurrent_results_in_input_order no_diagnostics echo_service
           "en-US-AriaNeural" false ["a"; "b"; "c"] 2).
  - lia.
  - intros [|[|[|i]]] text H; simpl in H; try discriminate;
      injection H as <-; eexists; reflexivity.
Defined.

(** The scenario of the specification: three texts, limit 2, the call for
    ["b"] ends before the call for ["a"]; the list returned is still in
    input order. *)
Example b_completes_before_a :
  exists s0 s,
    Client.start ["a"; "b"; "c"] 2 = Return s0 /\
    Client.run no_diagnostics echo_service "en-US-AriaNeural" false
      ["a"; "b"; "c"] s0
      [Acquire 0; Acquire 1; Complete 1; Acquire 2; Complete 0; Complete 2]
      = Some s /\
    outcome s = Some (Return [[x61]; [x62]; [x63]]) /\
    calls s = [0; 1; 2].
Proof. do 2 eexists. repeat split; reflexivity. Qed.

Lemma outstanding_calls_bounded_witness :
  exists s0 s,
    Client.start ["a"; "b"; "c"] 2 = Return s0 /\
    Client.run no_diagnostics echo_service "en-US-AriaNeural" false
      ["a"; "b"; "c"] s0 [Acquire 0; Acquire 1] = Some s /\
    (Z.of_nat (outstanding s) <= 2)%Z /\ (0 <= sem s <= 2)%Z /\
    (Z.of_nat (outstanding s) = 2 - sem s)%Z /\
    Client.step no_diagnostics echo_service "en-US-AriaNeural" false
      ["a"; "b"; "c"] s (Acquire 2) = None.
Proof.
  do 2 eexists. split; [reflexivity|]. split; [reflexivity|].
  pose proof (outstanding_calls_bounded no_diagnostics echo_service
                "en-US-AriaNeural" false ["a"; "b"; "c"] 2 _ _
                [Acquire 0; Acquire 1] eq_refl eq_refl) as H.
  destruct H as (H1 & H2 & H3).
  split; [exact H1|]. split; [exact H2|]. split; [exact H3|reflexivity].
Defined.

Lemma batch_failure_is_reported_witness :
  batch_synthesize_text no_diagnostics echo_service "en-US-AriaNeural" false
    ["a"; ""; "c"] =
  (Raise (TTSError
     "Failed to synthesize batch item 2: Failed to synthesize text: No audio data generated for text: ..."),
   [0; 1]).
Proof.
  refine (proj1 (batch_failure_is_reported no_diagnostics echo_service
            "en-US-AriaNeural" false ["a"; ""; "c"] 1 EmptyString
            (TTSError
               "Failed to synthesize text: No audio data generated for text: ...")
            3 eq_refl eq_refl _ _)).
  - intros [|i] text Hi H; [|lia]. injection H as <-.
    eexists; reflexivity.
  - lia.
Defined.

(** C2, as stated, fails for the concurrent variant: two units that both
    fail, limit 2, the call of the second unit ends first.  The unit at
    index 0 fails and no earlier unit does, yet the error raised names
    item 2. *)
Lemma concurrent_reports_a_later_failure :
  Client.call no_diagnostics silent_service "en-US-AriaNeural" false 0 "first"
    = Raise (TTSError
        "Failed to synthesize text: No audio data generated for text: first...")
  /\
  exists s0 s,
    Client.start ["first"; "second"] 2 = Return s0 /\
    Client.run no_diagnostics silent_service "en-US-AriaNeural" false
      ["first"; "second"] s0
      [Acquire 0; Acquire 1; Complete 1; Complete 0] = Some s /\
    outcome s = Some (Raise (TTSError
      "Failed to synthesize concurrent item 2: Failed to synthesize text: No audio data generated for text: second...")).
Proof. split; [reflexivity|]. do 2 eexists. repeat split; reflexivity. Qed.

Lemma empty_batch_makes_no_call_witness :
  batch_synthesize_text no_diagnostics echo_service "en-US-AriaNeural" false []
    = (Return [], []) /\
  exists s0, Client.start [] 3 = Return s0 /\
    outcome s0 = Some (Return []) /\ calls s0 = [] /\
    forall trace s,
      Client.run no_diagnostics echo_service "en-US-AriaNeural" false [] s0
        trace = Some s -> trace = [] /\ s = s0.
Proof.
  apply (empty_batch_makes_no_call no_diagnostics echo_service
           "en-US-AriaNeural" false 3).
  lia.
Defined.

(** ** The validator *)

Import XML Validator.

(** *** Diagnostics are only ever appended *)

Lemma validate_tag_appends (e : Element) (errors : list string) :
  validate_tag e errors = errors ++ validate_tag e [].
Proof.
  unfold validate_tag, _validate_prosody, _validate_emphasis, _validate_break,
    _validate_say_as.
  repeat match goal with
         | |- context [match ?x with _ => _ end] => destruct x
         end;
    rewrite ?app_nil_l, ?app_nil_r, <- ?app_assoc; reflexivity.
Qed.

Lemma validate_children_appends (kids : list Element) (errors : list string) :
  Forall (fun k => forall errs,
            _validate_element k errs = errs ++ _validate_element k []) kids ->
  foldl (fun errs child => _validate_element child errs) errors kids =
  errors ++ concat (map (fun k => _validate_element k []) kids).
Proof.
  intros H. revert errors.
  induction H as [|k kids Hk _ IH]; intros errors; simpl.
  - now rewrite app_nil_r.
  - rewrite IH, Hk, <- app_assoc. reflexivity.
Qed.

(** The checks of an element do not depend on the diagnostics found
    before it, and none of those is dropped. *)
Lemma validate_element_appends (e : Element) (errors : list string) :
  _validate_element e errors = errors ++ _validate_element e [].
Proof.
  revert errors. induction e as [t a kids IH] using Element_ind.
  intros errors. simpl.
  rewrite (validate_children_appends kids _ IH).
  rewrite (validate_children_appends kids (validate_tag _ []) IH).
  rewrite (validate_tag_appends _ errors), <- app_assoc. reflexivity.
Qed.

(** The diagnostics of a tree are those of its elements, in document
    order: validation goes on after a diagnostic. *)
Lemma validate_element_collects_all (t : string) (a : gmap string string)
    (kids : list Element) :
  _validate_element (Elem t a kids) [] =
  validate_tag (Elem t a kids) []
  ++ concat (map (fun k => _validate_element k []) kids).
Proof.
  simpl. apply validate_children_appends.
  apply Forall_forall. intros k _ errs. apply validate_element_appends.
Qed.

(** An element with the plain tag [prosody] whose rate is in neither the
    named rates nor a percentage nor a frequency gets the diagnostic naming
    that rate, and an element with the plain tag [break] whose time ends
    in neither [s] nor [ms] gets the one naming that time. *)
Lemma plain_prosody_rate_flagged (a : gmap string string)
    (kids : list Element) (rate : string) :
  a !! "rate" = Some rate ->
  member rate VALID_PROSODY_RATES = false ->
  endswith rate "%" = false -> endswith rate "Hz" = false ->
  exists more,
    _validate_element (Elem "prosody" a kids) [] =
    ("Invalid prosody rate: " +++ rate) :: more.
Proof.
  intros Hrate Hm Hp Hh. rewrite validate_element_collects_all.
  rewrite (validate_tag_appends _ []).
  unfold validate_tag, _validate_prosody. simpl.
  rewrite Hrate, Hm, Hp, Hh. simpl.
  destruct (a !! "pitch") as [pitch|];
    [destruct (negb _)|];
    (destruct (a !! "volume") as [volume|]; [destruct (negb _)|]);
    simpl; eexists; reflexivity.
Qed.

Lemma plain_break_time_flagged (a : gmap string string)
    (kids : list Element) (time : string) :
  a !! "time" = Some time ->
  endswith time "s" = false -> endswith time "ms" = false ->
  exists more,
    _validate_element (Elem "break" a kids) [] =
    ("Invalid break time format: " +++ time) :: more.
Proof.
  intros Htime Hs Hms. rewrite validate_element_collects_all.
  unfold validate_tag, _validate_break. simpl.
  rewrite Htime, Hs, Hms. simpl.
  destruct (a !! "strength") as [strength|]; [destruct (negb _)|];
    simpl; eexists; reflexivity.
Qed.

(** *** Namespace declarations never reach [attrib] *)

Lemma split_qname_plain (n l : string) : split_qname n = (None, l) -> l = n.
Proof.
  unfold split_qname.
  destruct (split ":" n) as [|p [|q [|? ?]]]; congruence.
Qed.

Lemma clark_not_xmlns (uri l : string) : clark uri l <> "xmlns".
Proof. discriminate. Qed.

Lemma scan_attrs_keeps_no_xmlns (attrs : list (string * string)) :
  forall seen sc kept sc' kept',
    Forall (fun nv => fst nv <> "xmlns") kept ->
    scan_attrs seen sc kept attrs = ROk (sc', kept') ->
    Forall (fun nv => fst nv <> "xmlns") kept'.
Proof.
  induction attrs as [|[n v] attrs IH]; intros seen sc kept sc' kept' Hk H;
    simpl in H.
  - now injection H as _ <-.
  - destruct (existsb (String.eqb n) seen); [discriminate|].
    destruct (String.eqb_spec n "xmlns") as [->|Hn].
    + destruct (reserved_ns v); [discriminate|]. eapply IH; eauto.
    + assert (Hk' : Forall (fun nv => fst nv <> "xmlns") (kept ++ [(n, v)])).
      { apply Forall_app. split; [assumption|]. repeat constructor.
        exact Hn. }
      destruct (split_qname n) as [[pre|] p].
      * destruct (String.eqb pre "xmlns"); [|eapply IH; eauto].
        match type of H with
        | (if ?c then _ else _) = _ => destruct c; [discriminate|]
        end.
        exact (IH _ _ _ _ _ Hk H).
      * eapply IH; eauto.
Qed.

Lemma expand_attrs_no_xmlns (sc : ns_scope) (attrs : list (string * string)) :
  forall acc m,
    acc !! "xmlns" = None ->
    Forall (fun nv => fst nv <> "xmlns") attrs ->
    expand_attrs sc acc attrs = ROk m ->
    m !! "xmlns" = None.
Proof.
  induction attrs as [|[n v] attrs IH]; intros acc m Hacc Hall H; simpl in H.
  - now injection H as <-.
  - inversion Hall as [|? ? Hn Hrest]; subst. simpl in Hn.
    destruct (split_qname n) as [[p|] l] eqn:Hq.
    + destruct (assoc p (prefixes sc)) as [uri|]; [|discriminate].
      simpl in H. destruct (acc !! clark uri l); [discriminate|].
      eapply IH; [|exact Hrest|exact H].
      rewrite lookup_insert_ne; [exact Hacc|apply clark_not_xmlns].
    + apply split_qname_plain in Hq. subst l.
      simpl in H. destruct (acc !! n); [discriminate|].
      eapply IH; [|exact Hrest|exact H].
      rewrite lookup_insert_ne; [exact Hacc|exact Hn].
Qed.

Lemma attach_no_xmlns (e : Element) (stack : list frame)
    (root : option Element) :
  attrib e !! "xmlns" = None ->
  Forall (fun f => f_attrib f !! "xmlns" = None) stack ->
  (forall r, root = Some r -> attrib r !! "xmlns" = None) ->
  Forall (fun f => f_attrib f !! "xmlns" = None) (attach e stack root).1 /\
  (forall r, (attach e stack root).2 = Some r -> attrib r !! "xmlns" = None).
Proof.
  intros He Hstack Hroot. destruct stack as [|f fs]; simpl.
  - split; [constructor|]. intros r [= <-]. exact He.
  - inversion Hstack; subst. split; [constructor; assumption|exact Hroot].
Qed.

Lemma tree_step_no_xmlns (st st' : tree_state) (t : token) :
  Forall (fun f => f_attrib f !! "xmlns" = None) st.1 ->
  (forall r, st.2 = Some r -> attrib r !! "xmlns" = None) ->
  tree_step st t = ROk st' ->
  Forall (fun f => f_attrib f !! "xmlns" = None) st'.1 /\
  (forall r, st'.2 = Some r -> attrib r !! "xmlns" = None).
Proof.
  destruct st as [stack root]. simpl. intros Hstack Hroot H.
  destruct t as [name attrs empty|name|blank]; simpl in H.
  - assert (Hgo : forall outer,
      rbind (scan_attrs [] outer [] attrs) (fun '(sc, kept) =>
        rbind (expand_attrs sc ∅ kept) (fun att =>
          rbind (expand_tag sc name) (fun tg =>
            if empty then ROk (attach (Elem tg att []) stack root)
            else ROk (Frame name tg att [] sc :: stack, root)))) = ROk st' ->
      Forall (fun f => f_attrib f !! "xmlns" = None) st'.1 /\
      (forall r, st'.2 = Some r -> attrib r !! "xmlns" = None)).
    { intros outer Hb.
      destruct (scan_attrs [] outer [] attrs) as [[sc kept]| |] eqn:Hscan;
        try discriminate.
      simpl in Hb.
      destruct (expand_attrs sc ∅ kept) as [att| |] eqn:Hexp;
        try discriminate.
      simpl in Hb.
      destruct (expand_tag sc name) as [tg| |]; try discriminate.
      simpl in Hb.
      assert (Hatt : att !! "xmlns" = None).
      { eapply expand_attrs_no_xmlns; [apply lookup_empty| |exact Hexp].
        eapply scan_attrs_keeps_no_xmlns; [|exact Hscan]. constructor. }
      destruct empty; injection Hb as <-.
      - apply attach_no_xmlns; assumption.
      - simpl. split; [constructor; assumption|exact Hroot]. }
    destruct stack as [|f fs]; [destruct root; [discriminate|]|];
      apply (Hgo _ H).
  - destruct stack as [|f fs]; [discriminate|].
    destruct (String.eqb (f_name f) name); [|discriminate].
    injection H as <-. inversion Hstack; subst.
    apply attach_no_xmlns; assumption.
  - destruct stack as [|f fs].
    + destruct blank; [|discriminate]. injection H as <-. auto.
    + injection H as <-. auto.
Qed.

Lemma tree_of_no_xmlns (toks : list token) (st st' : tree_state) :
  Forall (fun f => f_attrib f !! "xmlns" = None) st.1 ->
  (forall r, st.2 = Some r -> attrib r !! "xmlns" = None) ->
  tree_of st toks = ROk st' ->
  forall r, st'.2 = Some r -> attrib r !! "xmlns" = None.
Proof.
  revert st. induction toks as [|t toks IH]; intros st Hstack Hroot H;
    simpl in H.
  - now injection H as <-.
  - destruct (tree_step st t) as [st1| |] eqn:Hstep; try discriminate.
    destruct (tree_step_no_xmlns st st1 t Hstack Hroot Hstep) as [H1 H2].
    exact (IH st1 H1 H2 H).
Qed.

(** Whatever the input, the root that [ET.fromstring] returns has no
    [xmlns] entry in [attrib]: declarations are consumed by the parser. *)
Lemma parsed_root_has_no_xmlns (s : string) (root : Element) :
  fromstring s = Parsed root -> attrib root !! "xmlns" = None.
Proof.
  unfold fromstring. destruct (lex text0 s) as [toks why].
  destruct (tree_of ([], None) toks) as [[stack r]| |] eqn:Htree;
    try discriminate.
  destruct why; try discriminate.
  destruct stack; [|discriminate]. destruct r as [r|]; [|discriminate].
  intros [= <-].
  apply (tree_of_no_xmlns toks ([], None) ([], Some r)); simpl; auto.
  discriminate.
Qed.

(** So [validate] reports at least one diagnostic for every input: a parse
    error, or the missing [xmlns] attribute. *)
Lemma validate_never_empty (parse_error_text : string -> string)
    (ssml : string) :
  validate parse_error_text ssml <> Some [].
Proof.
  unfold validate. destruct (fromstring ssml) as [root| |] eqn:Hparse;
    try discriminate.
  unfold validate_root. rewrite (parsed_root_has_no_xmlns ssml root Hparse).
  rewrite validate_element_appends.
  destruct (negb _); destruct (attrib root !! "version"); discriminate.
Qed.

(** C3: the validator does not accept the builder's own output.  For a
    document made of a prosody fragment with rate [slow], an emphasis
    fragment with level [strong] and a break of [1s], [validate] returns
    two diagnostics: the parser has put the root in the namespace the
    builder declares, so its tag is not [speak], and has consumed the
    declaration, so [xmlns] is not in [attrib]. *)
Theorem validator_rejects_builder_output
    (parse_error_text : string -> string) :
  validate parse_error_text (build plain_document) =
  Some ["Root element must be <speak>";
        "Missing xmlns attribute in <speak> element"].
Proof. vm_compute. reflexivity. Qed.

(** C5: for the builder's output with a prosody rate [blurple] and a break
    time [5], [validate] returns the two diagnostics about the root only:
    the elements are in the declared namespace, their tags are
    [{http://www.w3.org/2001/10/synthesis}prosody] and [...break], and the
    checks of [_validate_element] compare with the plain names.  No
    diagnostic names [blurple] or the break time. *)
Theorem validator_misses_namespaced_elements
    (parse_error_text : string -> string) :
  exists diagnostics,
    validate parse_error_text (build faulty_document) = Some diagnostics /\
    diagnostics = ["Root element must be <speak>";
                   "Missing xmlns attribute in <speak> element"] /\
    Forall (fun d => contains "blurple" d = false
                     /\ contains "break" d = false) diagnostics.
Proof.
  eexists. split; [vm_compute; reflexivity|].
  split; [reflexivity|]. repeat constructor.
Qed.

(** The same two elements without a namespace declaration are flagged. *)
Example validator_flags_plain_elements (parse_error_text : string -> string) :
  validate parse_error_text faulty_markup_no_namespace =
  Some ["Missing xmlns attribute in <speak> element";
        "Invalid prosody rate: blurple";
        "Invalid break time format: 5"].
Proof. vm_compute. reflexivity. Qed.

(** * Further properties *)

(** ** Markup helpers of the client *)

Import PyStr Templates Markup.

Lemma cat_assoc (a b c : string) : (a +++ b) +++ c = a +++ (b +++ c).
Proof.
  unfold cat. induction a as [|x a IH]; [reflexivity|].
  change (String x ((a +:+ b) +:+ c) = String x (a +:+ (b +:+ c))).
  f_equal. exact IH.
Qed.

Lemma cat_empty_r (a : string) : a +++ EmptyString = a.
Proof.
  unfold cat. induction a as [|x a IH]; [reflexivity|].
  change (String x (a +:+ EmptyString) = String x a). f_equal. exact IH.
Qed.

(** A string holds the separator exactly when it splits into two or more
    segments. *)
Lemma split_without_sep (sep : ascii) (s : string) :
  has_char sep s = false -> split sep s = [s].
Proof.
  induction s as [|c s IH]; simpl; [reflexivity|].
  destruct (Ascii.eqb c sep); simpl; [discriminate|].
  intros H. now rewrite (IH H).
Qed.

Lemma split_with_sep (sep : ascii) (s : string) :
  has_char sep s = true -> exists p0 p1 rest, split sep s = p0 :: p1 :: rest.
Proof.
  induction s as [|c s IH]; simpl; [discriminate|].
  pose proof (split_nonempty sep s) as Hne.
  destruct (Ascii.eqb c sep); simpl.
  - intros _. destruct (split sep s) as [|p1 rest]; [contradiction|]. eauto.
  - intros H. destruct (IH H) as (p0 & p1 & rest & ->). eauto.
Qed.

Lemma voice_lang_extract (voice : string) :
  voice_lang voice = Return (_extract_language voice).
Proof.
  unfold voice_lang, _extract_language.
  destruct (has_char "-" voice) eqn:H.
  - destruct (split_with_sep "-" voice H) as (p0 & p1 & rest & ->).
    reflexivity.
  - now rewrite (split_without_sep "-" voice H).
Qed.

(** X1: the language tag computed inline by [create_ssml],
    [create_emphasis_ssml] and [create_break_ssml] never fails with an
    [IndexError] and is, for every voice, the tag [SSMLBuilder] derives. *)
Theorem markup_language_agrees_with_builder (voice : string) :
  voice_lang voice = Return (lang (__init__ voice None)).
Proof. apply voice_lang_extract. Qed.

Ltac same_text :=
  rewrite ?cat_assoc; cbn [cat String.append]; rewrite ?cat_assoc;
  reflexivity.

(** X2: [create_emphasis_ssml] writes, character for character, the
    document [SSMLBuilder(voice).add_emphasis(text, level).build()]
    writes. *)
Theorem create_emphasis_ssml_is_builder_output (text voice level : string) :
  create_emphasis_ssml text voice level =
  Return (build (add_emphasis (__init__ voice None) text level)).
Proof.
  unfold create_emphasis_ssml. rewrite voice_lang_extract.
  unfold Client.bind, build, add_emphasis, append_element, speak_open,
    speak_close. simpl elements. simpl join. f_equal.
  cbn [Builder.voice Builder.lang]. same_text.
Qed.

Lemma join_empty_cons (p : string) (ps : list string) :
  join EmptyString (p :: ps) = p +++ join EmptyString ps.
Proof. destruct ps; simpl; [now rewrite cat_empty_r|reflexivity]. Qed.

Lemma join_empty_app (l1 l2 : list string) :
  join EmptyString (l1 ++ l2) = join EmptyString l1 +++ join EmptyString l2.
Proof.
  induction l1 as [|p l1 IH]; [reflexivity|].
  change ((p :: l1) ++ l2) with (p :: (l1 ++ l2)).
  now rewrite !join_empty_cons, IH, cat_assoc.
Qed.

Lemma apply_ops_cons (b : SSMLBuilder) (o : op) (ops : list op) :
  apply_ops b (o :: ops) = apply_ops (apply_op b o) ops.
Proof. reflexivity. Qed.

Lemma apply_ops_keeps (ops : list op) (b : SSMLBuilder) :
  voice (apply_ops b ops) = voice b /\ lang (apply_ops b ops) = lang b.
Proof.
  revert b. induction ops as [|o ops IH]; intros b; [now split|].
  rewrite apply_ops_cons. destruct (IH (apply_op b o)) as [Hv Hl].
  rewrite Hv, Hl. destruct (apply_op_appends b o) as [f ->]. now split.
Qed.

Lemma parts_with_breaks_content (text_parts : list string)
    (break_time : string) (b : SSMLBuilder) :
  join EmptyString
    (elements (apply_ops b (parts_with_breaks text_parts break_time))) =
  join EmptyString (elements b)
  +++ join ("<break " +++ attr "time" break_time +++ "/>") text_parts.
Proof.
  revert b. induction text_parts as [|p [|q rest] IH]; intros b.
  - simpl. now rewrite cat_empty_r.
  - simpl. now rewrite join_empty_app.
  - change (parts_with_breaks (p :: q :: rest) break_time)
      with (AddText p :: AddBreak break_time
            :: parts_with_breaks (q :: rest) break_time).
    rewrite !apply_ops_cons, IH. simpl apply_op.
    unfold add_break, add_text, append_element. simpl elements.
    rewrite !join_empty_app. simpl (join EmptyString [_]).
    change (join ?s (p :: q :: rest)) with (p +++ s +++ join s (q :: rest)).
    now rewrite !cat_assoc.
Qed.

(** X3: [create_break_ssml] writes the document the builder writes when
    the parts are added as text with a break between each two (nothing for
    no part, no break for one part). *)
Theorem create_break_ssml_is_builder_output (text_parts : list string)
    (voice break_time : string) :
  create_break_ssml text_parts voice break_time =
  Return (build (apply_ops (__init__ voice None)
                   (parts_with_breaks text_parts break_time))).
Proof.
  unfold create_break_ssml. rewrite voice_lang_extract.
  unfold Client.bind, build.
  destruct (apply_ops_keeps (parts_with_breaks text_parts break_time)
              (__init__ voice None)) as [-> ->].
  rewrite parts_with_breaks_content.
  unfold speak_open, speak_close. f_equal.
  cbn [Builder.voice Builder.lang elements __init__ join]. same_text.
Qed.

(** X4: when rate, pitch and volume are not empty, [create_ssml] writes the
    document of [SSMLBuilder(voice).add_prosody(...)] for the text
    surrounded by the line breaks and indentation of its template. *)
Theorem create_ssml_is_builder_output (text voice rate pitch volume : string) :
  rate <> EmptyString -> pitch <> EmptyString -> volume <> EmptyString ->
  create_ssml text voice rate pitch volume =
  Return (build (add_prosody (__init__ voice None)
                   (newline +++ "            " +++ text +++ newline
                    +++ "        ")
                   (Some rate) (Some pitch) (Some volume))).
Proof.
  intros Hr Hp Hv. unfold create_ssml. rewrite voice_lang_extract.
  unfold Client.bind, build, add_prosody, append_element, truthy.
  destruct (String.eqb_spec rate EmptyString); [contradiction|].
  destruct (String.eqb_spec pitch EmptyString); [contradiction|].
  destruct (String.eqb_spec volume EmptyString); [contradiction|].
  unfold speak_open, speak_close. f_equal.
  cbn [negb app Builder.voice Builder.lang elements __init__ join].
  same_text.
Qed.

Lemma create_ssml_is_builder_output_witness :
  create_ssml "Hello" "en-US-AriaNeural" "0%" "0%" "100%" =
  Return (build (add_prosody (__init__ "en-US-AriaNeural" None)
                   (newline +++ "            " +++ "Hello" +++ newline
                    +++ "        ")
                   (Some "0%") (Some "0%") (Some "100%"))).
Proof.
  apply (create_ssml_is_builder_output "Hello" "en-US-AriaNeural"
           "0%" "0%" "100%"); discriminate.
Defined.

(** ** Templates *)

(** X5: [create_ssml_from_template] raises a [ValueError] listing the seven
    template names, in the order of the table, exactly when the name is
    none of them; for each of the seven it returns a built document for
    the given voice, with the language tag derived from it and one to
    three fragments. *)
Theorem template_lookup (name text voice : string) :
  let names := ["slow_speech"; "fast_speech"; "whisper"; "excited"; "calm";
                "emphasis_strong"; "with_pauses"] in
  (In name names ->
   exists b,
     create_ssml_from_template name text voice = Return (build b) /\
     Builder.voice b = voice /\ lang b = _extract_language voice /\
     1 <= length (elements b) <= 3) /\
  (~ In name names ->
   create_ssml_from_template name text voice =
   Raise (ValueError
     ("Unknown template '" +++ name
      +++ "'. Available: slow_speech, fast_speech, whisper, excited, calm, emphasis_strong, with_pauses"))).
Proof.
  cbv zeta. split.
  - intros H. simpl in H.
    destruct H as [<-|[<-|[<-|[<-|[<-|[<-|[<-|[]]]]]]]];
      unfold create_ssml_from_template; simpl lookup_template;
      try (eexists; split; [reflexivity|]; simpl; repeat split; lia).
    unfold with_pauses. destruct (has_char "." text);
      eexists; (split; [reflexivity|]); simpl; repeat split; lia.
  - intros H. unfold create_ssml_from_template. simpl lookup_template.
    repeat match goal with
           | |- context [String.eqb name ?k] =>
               destruct (String.eqb_spec name k) as [->|?];
               [exfalso; apply H; simpl; tauto|]
           end.
    reflexivity.
Qed.

Lemma template_lookup_witness :
  (exists b,
     create_ssml_from_template "whisper" "hush" "en-GB-SoniaNeural"
       = Return (build b) /\
     Builder.voice b = "en-GB-SoniaNeural" /\
     lang b = _extract_language "en-GB-SoniaNeural" /\
     1 <= length (elements b) <= 3) /\
  create_ssml_from_template "shout" "hush" "en-GB-SoniaNeural" =
  Raise (ValueError
    "Unknown template 'shout'. Available: slow_speech, fast_speech, whisper, excited, calm, emphasis_strong, with_pauses").
Proof.
  split.
  - apply (template_lookup "whisper" "hush" "en-GB-SoniaNeural").
    simpl. tauto.
  - apply (template_lookup "shout" "hush" "en-GB-SoniaNeural").
    simpl. intros [H|[H|[H|[H|[H|[H|[H|[]]]]]]]]; discriminate.
Defined.

(** X6: the [with_pauses] template cuts the text at its first period: the
    part before it (which holds no period) is spoken, then a break of
    [1s], then everything after that period; the period itself is not in
    the document.  A text without a period is spoken as it is. *)
Theorem with_pauses_cuts_at_first_period (text voice : string) :
  (has_char "." text = true ->
   exists head tail,
     text = head +++ "." +++ tail /\ has_char "." head = false /\
     create_ssml_from_template "with_pauses" text voice =
     Return (build (add_text
                      (add_break (add_text (__init__ voice None) head) "1s")
                      tail))) /\
  (has_char "." text = false ->
   create_ssml_from_template "with_pauses" text voice =
   Return (build (add_text (__init__ voice None) text))).
Proof.
  unfold create_ssml_from_template. simpl lookup_template.
  unfold with_pauses. split; intros H; rewrite H; [|reflexivity].
  destruct (split_with_sep "." text H) as (p0 & p1 & rest & Hs).
  exists p0, (join "." (p1 :: rest)). rewrite Hs. simpl hd. simpl tl.
  split; [|split; [|reflexivity]].
  - rewrite <- (join_split "." text) at 1. rewrite Hs. reflexivity.
  - pose proof (split_no_sep "." text) as Hall. rewrite Hs in Hall.
    now inversion Hall.
Qed.

Lemma with_pauses_cuts_at_first_period_witness :
  (exists head tail,
     "One. Two. Three" = head +++ "." +++ tail /\
     has_char "." head = false /\
     create_ssml_from_template "with_pauses" "One. Two. Three"
       "en-US-AriaNeural" =
     Return (build (add_text
                      (add_break
                         (add_text (__init__ "en-US-AriaNeural" None) head)
                         "1s")
                      tail)))
  /\ create_ssml_from_template "with_pauses" "No stop" "en-US-AriaNeural"
     = Return (build (add_text (__init__ "en-US-AriaNeural" None) "No stop")).
Proof.
  split.
  - apply (with_pauses_cuts_at_first_period "One. Two. Three"
             "en-US-AriaNeural").
    reflexivity.
  - apply (with_pauses_cuts_at_first_period "No stop" "en-US-AriaNeural").
    reflexivity.
Defined.

(** ** Suffixes *)

Lemma substring_whole (s : string) : substring 0 (String.length s) s = s.
Proof. induction s as [|c s IH]; simpl; [reflexivity|]. now rewrite IH. Qed.

Lemma substring_cut (s : string) (m : nat) :
  m <= String.length s ->
  s = substring 0 m s +++ substring m (String.length s - m) s.
Proof.
  unfold cat. revert m.
  induction s as [|c s IH]; intros [|m] H; simpl in *; try lia.
  - reflexivity.
  - now rewrite substring_whole.
  - change (String c s =
            String c (substring 0 m s
                      +:+ substring m (String.length s - m) s)).
    f_equal. apply IH. lia.
Qed.

(** [endswith] holds exactly of the strings that are something followed by
    the suffix. *)
Lemma endswith_ends (s suffix : string) :
  endswith s suffix = true -> exists before, s = before +++ suffix.
Proof.
  unfold endswith. intros H. apply andb_true_iff in H as [Hle Heq].
  apply Nat.leb_le in Hle. apply String.eqb_eq in Heq.
  exists (substring 0 (String.length s - String.length suffix) s).
  rewrite <- Heq at 2.
  rewrite (substring_cut s (String.length s - String.length suffix)) at 1
    by lia.
  repeat f_equal. lia.
Qed.

Lemma last_char_cat (before suffix : string) :
  suffix <> EmptyString -> last_char (before +++ suffix) = last_char suffix.
Proof.
  intros H. unfold cat. induction before as [|c b IH]; [reflexivity|].
  simpl. rewrite IH. destruct suffix as [|d suffix]; [contradiction|].
  simpl. destruct (last_char suffix); reflexivity.
Qed.

Lemma endswith_last_char (s suffix : string) :
  suffix <> EmptyString -> endswith s suffix = true ->
  last_char s = last_char suffix.
Proof.
  intros Hne H. destruct (endswith_ends s suffix H) as [before ->].
  now apply last_char_cat.
Qed.

Lemma percent_not_other_suffix (v suffix : string) :
  suffix <> EmptyString -> last_char suffix <> Some "%"%char ->
  endswith v "%" = true -> endswith v suffix = false.
Proof.
  intros Hne Hlast Hv. destruct (endswith v suffix) eqn:E; [|reflexivity].
  exfalso. apply Hlast.
  rewrite <- (endswith_last_char v suffix Hne E).
  now rewrite (endswith_last_char v "%") by (discriminate || assumption).
Qed.

Lemma percent_not_member (v : string) (names : list string) :
  Forall (fun n => endswith n "%" = false) names ->
  endswith v "%" = true ->
  Validator.member v (list_to_set names) = false.
Proof.
  intros Hall Hv. unfold Validator.member.
  apply bool_decide_eq_false. rewrite elem_of_list_to_set.
  intros Hin. rewrite Forall_forall in Hall.
  rewrite (Hall v Hin) in Hv. discriminate.
Qed.

(** ** What the attribute checks accept *)

(** X7: a value ending in [%] passes the check of a prosody [rate] and
    fails those of [pitch] and [volume]: an element with the plain tag
    [prosody] whose only attribute is such a rate gets no diagnostic, and
    one that carries the value as pitch or as volume gets the diagnostic
    naming it. *)
Theorem percentage_is_a_rate_only (a : gmap string string)
    (kids : list Element) (v : string) :
  endswith v "%" = true ->
  (a !! "rate" = Some v -> a !! "pitch" = None -> a !! "volume" = None ->
   validate_tag (Elem "prosody" a kids) [] = []) /\
  (a !! "pitch" = Some v ->
   In ("Invalid prosody pitch: " +++ v)
      (validate_tag (Elem "prosody" a kids) [])) /\
  (a !! "volume" = Some v ->
   In ("Invalid prosody volume: " +++ v)
      (validate_tag (Elem "prosody" a kids) [])).
Proof.
  intros Hv.
  assert (Hhz : endswith v "Hz" = false)
    by (apply percent_not_other_suffix; [discriminate|discriminate|exact Hv]).
  assert (Hst : endswith v "st" = false)
    by (apply percent_not_other_suffix; [discriminate|discriminate|exact Hv]).
  assert (Hdb : endswith v "dB" = false)
    by (apply percent_not_other_suffix; [discriminate|discriminate|exact Hv]).
  assert (Hp : Validator.member v VALID_PROSODY_PITCHES = false)
    by (apply percent_not_member; [repeat constructor|exact Hv]).
  assert (Hvol : Validator.member v VALID_PROSODY_VOLUMES = false)
    by (apply percent_not_member; [repeat constructor|exact Hv]).
  unfold validate_tag, _validate_prosody. simpl.
  split; [|split].
  - intros -> -> ->. rewrite Hv. rewrite orb_true_r. reflexivity.
  - intros ->. rewrite Hp, Hhz, Hst. simpl.
    destruct (a !! "rate") as [r|]; [destruct (negb _)|];
      (destruct (a !! "volume") as [w|]; [destruct (negb _)|]);
      rewrite ?in_app_iff; simpl; tauto.
  - intros ->. rewrite Hvol, Hdb. simpl.
    rewrite in_app_iff. simpl. tauto.
Qed.

Lemma percentage_is_a_rate_only_witness :
  validate_tag (Elem "prosody" {["rate" := "0%"]} []) [] = [] /\
  In "Invalid prosody pitch: 0%"
     (validate_tag (Elem "prosody" {["pitch" := "0%"]} []) []) /\
  In "Invalid prosody volume: 100%"
     (validate_tag (Elem "prosody" {["volume" := "100%"]} []) []).
Proof.
  split; [|split].
  - apply (percentage_is_a_rate_only {["rate" := "0%"]} [] "0%");
      reflexivity.
  - apply (percentage_is_a_rate_only {["pitch" := "0%"]} [] "0%");
      reflexivity.
  - apply (percentage_is_a_rate_only {["volume" := "100%"]} [] "100%");
      reflexivity.
Defined.

(** ** Diagnostics in document order *)

Import Traversal.

Lemma validate_element_preorder (e : Element) :
  _validate_element e [] =
  concat (map (fun x => validate_tag x []) (preorder e)).
Proof.
  induction e as [t a kids IH] using Element_ind.
  rewrite validate_element_collects_all.
  change (preorder (Elem t a kids))
    with (Elem t a kids :: concat (map preorder kids)).
  simpl. f_equal.
  induction IH as [|k ks Hk _ IHks]; [reflexivity|].
  simpl. rewrite map_app, concat_app, Hk, IHks. reflexivity.
Qed.

(** X8: the diagnostics [_validate_element] leaves in [errors] are the ones
    it was given, followed by the diagnostics of the element and of each of
    its descendants taken on its own, concatenated in document order:
    nothing found earlier is lost or changes what is found later. *)
Theorem diagnostics_in_document_order (e : Element) (errors : list string) :
  _validate_element e errors =
  errors ++ concat (map (fun x => validate_tag x []) (preorder e)).
Proof.
  rewrite validate_element_appends. now rewrite validate_element_preorder.
Qed.

(** ** validate_ssml and synthesize_ssml *)

(** X9: [validate_ssml] accepts nothing: for every input that parses or
    fails to parse, the diagnostics are a non-empty list, so with
    [raise_on_error=True] it raises the [ValueError] that joins them, and
    with [raise_on_error=False] it returns them. *)
Theorem validate_ssml_accepts_nothing (parse_error_text : string -> string)
    (ssml : string) :
  (validate parse_error_text ssml = None /\
   validate_ssml parse_error_text ssml true = None /\
   validate_ssml parse_error_text ssml false = None) \/
  exists first others,
    validate parse_error_text ssml = Some (first :: others) /\
    validate_ssml parse_error_text ssml true =
      Some (Raise (ValueError ("SSML validation failed: "
                               +++ join "; " (first :: others)))) /\
    validate_ssml parse_error_text ssml false =
      Some (Return (first :: others)).
Proof.
  pose proof (validate_never_empty parse_error_text ssml) as Hne.
  unfold validate_ssml.
  destruct (validate parse_error_text ssml) as [[|first others]|];
    [congruence| |left; auto].
  right. exists first, others. auto.
Qed.

(** X10: with the validator of [ssml_utils] behind it, [synthesize_ssml]
    (and [synthesize_text] with [use_ssml=True]) fails for every markup the
    validator gives diagnostics for, which is all of it: it raises the
    [TTSError] wrapping them, whatever the service would have streamed. *)
Theorem synthesize_ssml_always_rejected
    (parse_error_text : string -> string)
    (ssml_errors : string -> list string) (st : stream)
    (ssml voice : string) (errors : list string) :
  validate parse_error_text ssml = Some errors ->
  ssml_errors ssml = errors ->
  synthesize_ssml ssml_errors st ssml voice =
  Raise (TTSError
    ("Failed to synthesize text: SSML validation error: SSML validation failed: "
     +++ join "; " errors)).
Proof.
  intros Hval Herr.
  pose proof (validate_never_empty parse_error_text ssml) as Hne.
  unfold synthesize_ssml, synthesize_text, _validate_ssml, try_except,
    Client.bind.
  rewrite Herr. destruct errors as [|first others]; [congruence|].
  simpl str_exn. reflexivity.
Qed.

Lemma synthesize_ssml_always_rejected_witness :
  synthesize_ssml
    (fun s => match validate (fun _ => "syntax error") s with
              | Some errors => errors
              | None => []
              end)
    (Stream [Chunk "audio" [x49; x44]] None)
    (build plain_document) "en-US-AriaNeural" =
  Raise (TTSError
    "Failed to synthesize text: SSML validation error: SSML validation failed: Root element must be <speak>; Missing xmlns attribute in <speak> element").
Proof.
  apply (synthesize_ssml_always_rejected (fun _ => "syntax error")
           (fun s => match validate (fun _ => "syntax error") s with
                     | Some errors => errors
                     | None => []
                     end)
           (Stream [Chunk "audio" [x49; x44]] None)
           (build plain_document) "en-US-AriaNeural"
           ["Root element must be <speak>";
            "Missing xmlns attribute in <speak> element"]).
  - vm_compute. reflexivity.
  - vm_compute. reflexivity.
Defined.

(** ** Voices *)

Import Voices VoiceList.

Lemma voice_of_entry_complete (entry : gmap string string) (v : Voice) :
  voice_of_entry entry = Return v ->
  entry !! "ShortName" = Some (name v) /\
  entry !! "FriendlyName" = Some (display_name v) /\
  entry !! "Locale" = Some (locale v) /\
  entry !! "Gender" = Some (gender v) /\
  name v <> EmptyString /\ display_name v <> EmptyString /\
  locale v <> EmptyString /\ gender v <> EmptyString.
Proof.
  unfold voice_of_entry, getitem_dict, Client.bind, Voices.new,
    Voices.__post_init__, truthy.
  destruct (entry !! "ShortName") as [n|]; [|discriminate].
  destruct (entry !! "FriendlyName") as [d|]; [|discriminate].
  destruct (entry !! "Locale") as [l|]; [|discriminate].
  destruct (entry !! "Gender") as [g|]; [|discriminate].
  simpl.
  destruct (String.eqb_spec n EmptyString); [discriminate|].
  destruct (String.eqb_spec d EmptyString); [discriminate|].
  destruct (String.eqb_spec l EmptyString); [discriminate|].
  destruct (String.eqb_spec g EmptyString); [discriminate|].
  simpl. intros [= <-]. simpl. auto 10.
Qed.

Lemma voices_of_entries_complete (entries : list (gmap string string)) :
  forall voices,
    voices_of_entries entries = Return voices ->
    Forall2 (fun entry v => voice_of_entry entry = Return v) entries voices.
Proof.
  induction entries as [|entry rest IH]; intros voices H; simpl in H.
  - injection H as <-. constructor.
  - unfold Client.bind in H.
    destruct (voice_of_entry entry) as [v|] eqn:Hv; [|discriminate].
    destruct (voices_of_entries rest) as [vs|]; [|discriminate].
    injection H as <-. constructor; auto.
Qed.

(** X11: when [list_voices] fetches the list and returns, it returns one
    [Voice] per entry of the service's answer, in order, made of the
    entry's [ShortName], [FriendlyName], [Locale] and [Gender], none of
    them empty; when it raises, after a failed fetch, a missing key or an
    empty value, it raises a [TTSError]. *)
Theorem listed_voices_are_complete
    (service : result (list (gmap string string))) :
  match value (list_voices None service) with
  | Return voices =>
      exists entries,
        service = Return entries /\
        Forall2 (fun entry v =>
                   entry !! "ShortName" = Some (name v) /\
                   entry !! "FriendlyName" = Some (display_name v) /\
                   entry !! "Locale" = Some (locale v) /\
                   entry !! "Gender" = Some (gender v) /\
                   name v <> EmptyString /\ display_name v <> EmptyString /\
                   locale v <> EmptyString /\ gender v <> EmptyString)
                entries voices
  | Raise e => exists msg, e = TTSError ("Failed to list voices: " +++ msg)
  end.
Proof.
  unfold list_voices, Client.bind.
  destruct service as [entries|e]; simpl; [|eauto].
  destruct (voices_of_entries entries) as [voices|e] eqn:H; simpl; [|eauto].
  exists entries. split; [reflexivity|].
  apply voices_of_entries_complete in H.
  induction H as [|entry v es vs Hv _ IH]; constructor;
    [now apply voice_of_entry_complete|exact IH].
Qed.

(** X12: the voice list is fetched once: a first [list_voices] on an empty
    cache asks the service; if it returns, every later call returns the
    same list without asking the service, whatever the service would now
    answer; if it raises, nothing is cached, so the next call asks again;
    [clear_voice_cache] brings back the empty cache. *)
Theorem voice_list_fetched_once
    (service : result (list (gmap string string))) :
  let first := list_voices None service in
  fetched first = true /\
  (forall voices, value first = Return voices ->
     cache first = Some voices /\
     forall later,
       list_voices (cache first) later = Outcome (Return voices)
                                           (Some voices) false) /\
  (forall e, value first = Raise e ->
     cache first = None /\
     forall later, list_voices (cache first) later = list_voices None later) /\
  (forall any later,
     list_voices (clear_voice_cache any) later = list_voices None later).
Proof.
  cbv zeta. unfold list_voices.
  destruct (Client.bind service voices_of_entries) as [voices|e]; simpl.
  - split; [reflexivity|]. split; [|split; [discriminate|reflexivity]].
    intros vs [= <-]. split; reflexivity.
  - split; [reflexivity|]. split; [discriminate|].
    split; [|reflexivity]. intros e' _. split; reflexivity.
Qed.

Lemma voice_list_fetched_once_witness :
  exists voices,
    value (list_voices None
             (Return [{["ShortName" := "en-US-AriaNeural";
                        "FriendlyName" := "Aria";
                        "Locale" := "en-US"; "Gender" := "Female"]}]))
      = Return voices /\
    forall later,
      list_voices (Some voices) later = Outcome (Return voices)
                                          (Some voices) false.
Proof.
  eexists. split; [reflexivity|].
  destruct (voice_list_fetched_once
              (Return [{["ShortName" := "en-US-AriaNeural";
                         "FriendlyName" := "Aria";
                         "Locale" := "en-US"; "Gender" := "Female"]}]))
    as (_ & H & _).
  destruct (H _ eq_refl) as [_ Hlater]. exact Hlater.
Defined.

Lemma prefix_self (s : string) : String.prefix s s = true.
Proof.
  induction s as [|c s IH]; simpl; [reflexivity|].
  destruct (ascii_dec c c); [exact IH|contradiction].
Qed.

Lemma prefix_empty (s : string) : String.prefix EmptyString s = true.
Proof. destruct s; reflexivity. Qed.

Lemma matches_language_selected (v : Voice) (language : string) :
  matches_language v language = true -> locale_selected v language = true.
Proof.
  unfold matches_language, locale_selected, startswith, language_code.
  destruct (String.eqb_spec language (locale v)) as [->|_].
  - intros _. now rewrite prefix_self.
  - destruct (String.eqb_spec language (hd EmptyString (split "-" (locale v))))
      as [->|_]; [|discriminate].
    intros _. rewrite String.eqb_refl. apply orb_true_r.
Qed.

Lemma filter_of_wider_filter {A : Type} (p q : A -> bool) (l : list A) :
  (forall x, p x = true -> q x = true) ->
  List.filter p (List.filter q l) = List.filter p l.
Proof.
  intros H. induction l as [|x l IH]; simpl; [reflexivity|].
  destruct (q x) eqn:Hq; simpl.
  - now rewrite IH.
  - destruct (p x) eqn:Hp; [|exact IH].
    rewrite (H x Hp) in Hq. discriminate.
Qed.

Lemma filter_all {A : Type} (p : A -> bool) (l : list A) :
  (forall x, p x = true) -> List.filter p l = l.
Proof.
  intros H. induction l as [|x l IH]; simpl; [reflexivity|].
  now rewrite H, IH.
Qed.

(** X13: on a cached voice list, [get_voices_by_language] returns, without
    asking the service, a selection that holds every voice
    [VoiceManager.filter_by_language] keeps for the same language (the
    manager's filter applied to the selection gives the manager's result);
    and for the empty language it returns the whole list, since every
    locale starts with the empty string. *)
Theorem client_selection_holds_manager_filter (voices : list Voice)
    (service : result (list (gmap string string))) (language : string) :
  exists selected,
    get_voices_by_language (Some voices) service language =
      Outcome (Return selected) (Some voices) false /\
    filter_by_language selected language = filter_by_language voices language /\
    (language = EmptyString -> selected = voices).
Proof.
  eexists. split; [reflexivity|]. split.
  - unfold filter_by_language. apply filter_of_wider_filter.
    intros v. apply matches_language_selected.
  - intros ->. apply filter_all. intros v.
    unfold locale_selected, startswith. now rewrite prefix_empty.
Qed.

(** X14: [find_voice_by_name] returns the first voice of the list with the
    given name, and [None] exactly when no voice has it. *)
Theorem find_voice_is_first_match (voices : list Voice) (n : string) :
  match find_voice_by_name voices n with
  | Some v =>
      exists before after,
        voices = before ++ v :: after /\ name v = n /\
        Forall (fun w => name w <> n) before
  | None => Forall (fun w => name w <> n) voices
  end.
Proof.
  induction voices as [|w voices IH]; simpl; [constructor|].
  destruct (String.eqb_spec (name w) n) as [Hn|Hn].
  - exists [], voices. repeat split; [exact Hn|constructor].
  - destruct (find_voice_by_name voices n) as [v|].
    + destruct IH as (before & after & -> & Hv & Hall).
      exists (w :: before), after. repeat split; [exact Hv|].
      constructor; assumption.
    + constructor; assumption.
Qed.

(** *** Sorted listings *)

Lemma insert_sorted_perm (x : string) (l : list string) :
  insert_sorted x l ≡ₚ x :: l.
Proof.
  induction l as [|y l IH]; simpl; [reflexivity|].
  destruct (String.leb x y); [reflexivity|].
  rewrite IH. apply Permutation_swap.
Qed.

Lemma sorted_perm (l : list string) : sorted l ≡ₚ l.
Proof.
  induction l as [|x l IH]; simpl; [reflexivity|].
  rewrite insert_sorted_perm. now rewrite IH.
Qed.

Lemma insert_sorted_ordered (x : string) (l : list string) :
  Sorted (fun a b => String.leb a b = true) l ->
  Sorted (fun a b => String.leb a b = true) (insert_sorted x l).
Proof.
  induction l as [|y l IH]; intros Hs; simpl.
  - repeat constructor.
  - destruct (String.leb x y) eqn:Hxy.
    + constructor; [exact Hs|constructor; exact Hxy].
    + inversion Hs as [|? ? Hl Hhd]; subst.
      constructor; [apply IH; exact Hl|].
      assert (Hyx : String.leb y x = true).
      { destruct (String.leb_total x y) as [H|H]; [congruence|exact H]. }
      destruct l as [|z l]; simpl.
      * constructor. exact Hyx.
      * destruct (String.leb x z); constructor; [exact Hyx|].
        now inversion Hhd.
Qed.

Lemma sorted_ordered (l : list string) :
  Sorted (fun a b => String.leb a b = true) (sorted l).
Proof.
  induction l as [|x l IH]; simpl; [constructor|].
  now apply insert_sorted_ordered.
Qed.

Lemma collect_spec (key : Voice -> string) (voices : list Voice)
    (x : string) :
  x ∈ collect key voices <-> exists v, v ∈ voices /\ key v = x.
Proof.
  unfold collect.
  assert (H : forall acc : gset string,
            x ∈ foldl (fun acc voice => acc ∪ {[key voice]}) acc voices <->
            x ∈ acc \/ exists v, v ∈ voices /\ key v = x).
  { induction voices as [|w voices IH]; intros acc; simpl.
    - split; [auto|]. intros [H|(v & Hv & _)]; [exact H|].
      now apply not_elem_of_nil in Hv.
    - rewrite IH. rewrite elem_of_union, elem_of_singleton. split.
      + intros [[H|H]|(v & Hv & Hk)]; [now left| |].
        * right. exists w. split; [left|now symmetry].
        * right. exists v. split; [now right|exact Hk].
      + intros [H|(v & Hv & Hk)]; [left; now left|].
        apply elem_of_cons in Hv as [->|Hv].
        * left. right. now symmetry.
        * right. eauto. }
  rewrite H. split; [|auto]. intros [Hx|Hx]; [|exact Hx].
  now apply not_elem_of_empty in Hx.
Qed.

(** X15: [get_languages] and [get_locales] return a list without
    repetition, in ascending order, that holds exactly the language codes
    (the locales) of the given voices. *)
Theorem listings_sorted_and_unique (voices : list Voice) :
  (NoDup (get_languages voices) /\
   Sorted (fun a b => String.leb a b = true) (get_languages voices) /\
   forall x, x ∈ get_languages voices <->
             exists v, v ∈ voices /\ language_code v = x) /\
  (NoDup (get_locales voices) /\
   Sorted (fun a b => String.leb a b = true) (get_locales voices) /\
   forall x, x ∈ get_locales voices <->
             exists v, v ∈ voices /\ locale v = x).
Proof.
  unfold get_languages, get_locales.
  split; (split; [|split]);
    try apply sorted_ordered;
    try (rewrite sorted_perm; apply NoDup_elements);
    intros x; rewrite sorted_perm, elem_of_elements; apply collect_spec.
Qed.

(** ** Safe file names *)

Import Utils.
Lemma all_chars_map (p : ascii -> bool) (f : ascii -> ascii) (s : string) :
  (forall c, p (f c) = true) -> all_chars p (map_chars f s) = true.
Proof.
  intros H. induction s as [|c s IH]; cbn [all_chars map_chars];
    [reflexivity|].
  now rewrite H, IH.
Qed.

Lemma replaced_char_safe (c : ascii) :
  has_char (if has_char c safe_chars then c else "_"%char) safe_chars = true.
Proof. destruct (has_char c safe_chars) eqn:E; [exact E|reflexivity]. Qed.

Lemma all_chars_map_safe (text : string) :
  all_chars (fun c => has_char c safe_chars)
    (map_chars (fun c => if has_char c safe_chars then c else "_"%char) text)
  = true.
Proof. apply all_chars_map. intros c. apply replaced_char_safe. Qed.

Lemma map_chars_length (f : ascii -> ascii) (s : string) :
  String.length (map_chars f s) = String.length s.
Proof. induction s as [|c s IH]; simpl; [reflexivity|]. now rewrite IH. Qed.

Lemma all_chars_substring (p : ascii -> bool) (s : string) (n : nat) :
  all_chars p s = true -> all_chars p (substring 0 n s) = true.
Proof.
  revert n. induction s as [|c s IH]; intros [|n] H; simpl in *;
    try reflexivity.
  apply andb_true_iff in H as [Hc Hs]. rewrite Hc. simpl. now apply IH.
Qed.

Lemma substring_length_le (s : string) (n : nat) :
  String.length (substring 0 n s) <= n /\
  String.length (substring 0 n s) <= String.length s.
Proof.
  revert n. induction s as [|c s IH]; intros [|n]; simpl; try lia.
  destruct (IH n). lia.
Qed.

Lemma all_chars_slice (p : ascii -> bool) (s : string) (n : Z) :
  all_chars p s = true -> all_chars p (slice_to n s) = true.
Proof.
  unfold slice_to. destruct (n <? 0)%Z; apply all_chars_substring.
Qed.

Lemma rstrip_facts (chars s : string) (p : ascii -> bool) :
  String.length (rstrip chars s) <= String.length s /\
  (all_chars p s = true -> all_chars p (rstrip chars s) = true) /\
  (forall d, last_char (rstrip chars s) = Some d -> has_char d chars = false).
Proof.
  induction s as [|c s (IHlen & IHall & IHlast)]; simpl.
  - repeat split; [lia|discriminate].
  - destruct (rstrip chars s) as [|k kept] eqn:Hr.
    + destruct (has_char c chars) eqn:Hc; simpl.
      * repeat split; [lia|discriminate].
      * repeat split; [lia| |].
        -- intros H. apply andb_true_iff in H as [-> _]. reflexivity.
        -- intros d [= <-]. exact Hc.
    + simpl in *. repeat split; [lia| |].
      * intros H. apply andb_true_iff in H as [-> Hs]. simpl. now apply IHall.
      * intros d Hd. apply IHlast.
        destruct (last_char kept) as [e|]; congruence.
Qed.

Lemma rstrip_fixed (chars r : string) :
  (forall d, last_char r = Some d -> has_char d chars = false) ->
  rstrip chars r = r.
Proof.
  induction r as [|c r IH]; intros H; simpl in *; [reflexivity|].
  destruct r as [|c' r'].
  - simpl in *. now rewrite (H c eq_refl).
  - rewrite IH.
    + reflexivity.
    + intros d Hd. apply H. rewrite Hd. reflexivity.
Qed.

Lemma map_chars_fixed (p : ascii -> bool) (f : ascii -> ascii) (r : string) :
  (forall c, p c = true -> f c = c) ->
  all_chars p r = true -> map_chars f r = r.
Proof.
  intros H. induction r as [|c r IH]; cbn [all_chars map_chars];
    [reflexivity|].
  intros Hr. apply andb_true_iff in Hr as [Hc Hr].
  now rewrite (H c Hc), IH.
Qed.

Lemma map_chars_safe_fixed (r : string) :
  all_chars (fun c => has_char c safe_chars) r = true ->
  map_chars (fun c => if has_char c safe_chars then c else "_"%char) r = r.
Proof.
  apply (map_chars_fixed (fun c => has_char c safe_chars)).
  intros c Hc. now rewrite Hc.
Qed.

Lemma safe_filename_facts (text : string) (max_length : Z) :
  let r := get_safe_filename text max_length in
  r <> EmptyString /\
  all_chars (fun c => has_char c safe_chars) r = true /\
  (forall d, last_char r = Some d -> has_char d ". " = false) /\
  (r = "output" \/
   (String.length r <= String.length text /\
    ((0 <= max_length)%Z -> (Z.of_nat (String.length r) <= max_length)%Z))).
Proof.
  cbv zeta. unfold get_safe_filename.
  set (mapped := map_chars _ text).
  set (cut := if (Z.of_nat (String.length mapped) >? max_length)%Z
              then slice_to max_length mapped else mapped).
  assert (Hall : all_chars (fun c => has_char c safe_chars) cut = true).
  { subst cut. destruct (_ >? _)%Z;
      [apply all_chars_slice|]; apply all_chars_map_safe. }
  assert (Hlen : String.length cut <= String.length text /\
                 ((0 <= max_length)%Z ->
                  (Z.of_nat (String.length cut) <= max_length)%Z)).
  { pose proof (map_chars_length
                  (fun c => if has_char c safe_chars then c else "_"%char)
                  text) as Hml.
    fold mapped in Hml. subst cut. rewrite Z.gtb_ltb.
    destruct (Z.ltb_spec max_length (Z.of_nat (String.length mapped))).
    - unfold slice_to. destruct (Z.ltb_spec max_length 0).
      + destruct (substring_length_le mapped
                    (String.length mapped - Z.to_nat (- max_length)))
          as [_ H2].
        split; lia.
      + destruct (substring_length_le mapped (Z.to_nat max_length))
          as [H1 H2].
        split; lia.
    - split; lia. }
  destruct (rstrip_facts ". " cut (fun c => has_char c safe_chars))
    as (Hrlen & Hrall & Hrlast).
  unfold truthy.
  destruct (String.eqb_spec (rstrip ". " cut) EmptyString) as [He|Hne];
    cbn [negb].
  - split; [discriminate|]. split; [reflexivity|].
    split; [|now left]. intros d [= <-]. reflexivity.
  - split; [exact Hne|]. split; [now apply Hrall|].
    split; [exact Hrlast|]. right. split; [lia|]. intros H0.
    destruct Hlen as [_ Hm]. specialize (Hm H0). lia.
Qed.

(** X16: [get_safe_filename] never returns an empty name: every character
    of its result is one of the safe characters, the result does not end
    in a period or a space, and it is either the fallback [output] or no
    longer than the text and, for a non-negative [max_length], no longer
    than [max_length]. *)
Theorem safe_filename_is_safe (text : string) (max_length : Z) :
  let r := get_safe_filename text max_length in
  r <> EmptyString /\
  all_chars (fun c => has_char c safe_chars) r = true /\
  (forall d, last_char r = Some d -> d <> "."%char /\ d <> " "%char) /\
  (r = "output" \/
   (String.length r <= String.length text /\
    ((0 <= max_length)%Z -> (Z.of_nat (String.length r) <= max_length)%Z))).
Proof.
  destruct (safe_filename_facts text max_length) as (H1 & H2 & H3 & H4).
  cbv zeta. repeat split; try assumption;
    intros ->; specialize (H3 _ H); discriminate.
Qed.

(** X17: with [max_length >= 6] (the length of the fallback name)
    [get_safe_filename] is idempotent: a name it returned is returned
    unchanged. *)
Theorem safe_filename_idempotent (text : string) (max_length : Z) :
  (6 <= max_length)%Z ->
  get_safe_filename (get_safe_filename text max_length) max_length =
  get_safe_filename text max_length.
Proof.
  intros Hm.
  destruct (safe_filename_facts text max_length) as (Hne & Hall & Hlast & Hlen).
  cbv zeta in *. set (r := get_safe_filename text max_length) in *.
  assert (Hr : (Z.of_nat (String.length r) <= max_length)%Z).
  { destruct Hlen as [->|[_ H]]; [simpl; lia|apply H; lia]. }
  unfold get_safe_filename at 1.
  rewrite (map_chars_safe_fixed r Hall). rewrite Z.gtb_ltb.
  destruct (Z.ltb_spec max_length (Z.of_nat (String.length r))); [lia|].
  rewrite (rstrip_fixed ". " r Hlast). unfold truthy.
  destruct (String.eqb_spec r EmptyString); [contradiction|reflexivity].
Qed.

Lemma safe_filename_idempotent_witness :
  get_safe_filename (get_safe_filename "Hello, World!" 50) 50 =
  get_safe_filename "Hello, World!" 50
  /\ get_safe_filename "Hello, World!" 50 = "Hello_ World_"
  /\ get_safe_filename "..." 2 = "output"
  /\ get_safe_filename (get_safe_filename "..." 2) 2 = "ou".
Proof.
  split; [apply (safe_filename_idempotent "Hello, World!" 50); lia|].
  repeat split; reflexivity.
Defined.

(** ** Presets *)

Import Presets.

(** X18: [get_preset] returns, for each of the seven names of
    [list_presets], a configuration that passed [__post_init__] (all its
    constraints hold, so the class body of [ConfigManager] runs without
    raising) and whose [max_concurrent] is at least 1; for any other name
    it raises the [ValueError] listing the seven names in table order. *)
Theorem presets_are_valid (preset_name : string) :
  list_presets = ["default"; "fast"; "slow"; "high_quality";
                  "batch_processing"; "whisper"; "excited"] /\
  (In preset_name list_presets ->
   exists c,
     get_preset preset_name = Return c /\ Config.new c = Return c /\
     (1 <= max_concurrent c)%Z /\ (1 <= batch_size c)%Z) /\
  (~ In preset_name list_presets ->
   get_preset preset_name =
   Raise (ValueError
     ("Unknown preset '" +++ preset_name
      +++ "'. Available: default, fast, slow, high_quality, batch_processing, whisper, excited"))).
Proof.
  split; [reflexivity|]. split.
  - intros H.
    change list_presets
      with ["default"; "fast"; "slow"; "high_quality"; "batch_processing";
            "whisper"; "excited"] in H.
    simpl in H.
    destruct H as [<-|[<-|[<-|[<-|[<-|[<-|[<-|[]]]]]]]];
      eexists; (split; [reflexivity|]); (split; [reflexivity|]);
      simpl; lia.
  - intros H.
    change list_presets
      with ["default"; "fast"; "slow"; "high_quality"; "batch_processing";
            "whisper"; "excited"] in H.
    unfold get_preset. simpl lookup_preset.
    repeat match goal with
           | |- context [String.eqb preset_name ?k] =>
               destruct (String.eqb_spec preset_name k) as [->|?];
               [exfalso; apply H; simpl; tauto|]
           end.
    reflexivity.
Qed.

Lemma presets_are_valid_witness :
  (exists c,
     get_preset "batch_processing" = Return c /\ Config.new c = Return c /\
     (1 <= max_concurrent c)%Z /\ (1 <= batch_size c)%Z) /\
  get_preset "loud" =
  Raise (ValueError
    "Unknown preset 'loud'. Available: default, fast, slow, high_quality, batch_processing, whisper, excited").
Proof.
  split.
  - apply (presets_are_valid "batch_processing"). simpl. tauto.
  - apply (presets_are_valid "loud"). simpl.
    intros [H|[H|[H|[H|[H|[H|[H|[]]]]]]]]; discriminate.
Defined.

(** ** Audio backends *)

Import Audio.

(** X19: a player that [AudioPlayer.__init__] constructs always has a
    backend to use: construction raises exactly when neither import
    succeeds, and otherwise [_get_backend_to_use] returns, without
    raising, a backend of [_available_backends]: the preferred one when it
    is available, else [pygame] when it is, else [playsound]. *)
Theorem constructed_player_has_backend (preferred : option string)
    (has_pygame has_playsound : bool) :
  match Audio.__init__ preferred has_pygame has_playsound with
  | AudioError _ => has_pygame = false /\ has_playsound = false
  | Done player =>
      (has_pygame = true \/ has_playsound = true) /\
      exists backend,
        _get_backend_to_use player = Done backend /\
        In backend (_available_backends player) /\
        (forall p, preferred = Some p ->
                   In p (_available_backends player) -> backend = p) /\
        (forall p, preferred = Some p ->
                   ~ In p (_available_backends player) ->
                   backend = if has_pygame then "pygame" else "playsound") /\
        (preferred = None ->
         backend = if has_pygame then "pygame" else "playsound")
  end.
Proof.
  destruct has_pygame, has_playsound; simpl; try (split; reflexivity);
    (split; [tauto|]);
    unfold _get_backend_to_use; simpl;
    (destruct preferred as [p|]; simpl;
     [|eexists; split; [reflexivity|]; simpl;
       repeat split; try tauto; try discriminate; congruence]);
    unfold truthy;
    destruct (String.eqb_spec p EmptyString) as [->|Hp]; simpl;
    try (eexists; split; [reflexivity|]; simpl; repeat split;
         try tauto; try congruence;
         intros q [= <-]; simpl; intros [H|[H|H]]; try discriminate;
         try contradiction; fail);
    destruct (String.eqb_spec p "pygame") as [->|Hpg]; simpl;
    try (eexists; split; [reflexivity|]; simpl; repeat split;
         try tauto; try congruence;
         intros q [= <-]; simpl; intros H; try tauto;
         try (exfalso; apply H; tauto); fail);
    destruct (String.eqb_spec p "playsound") as [->|Hps]; simpl;
    eexists; (split; [reflexivity|]); simpl; repeat split;
      try tauto; try congruence;
      intros q [= <-]; simpl; intros H; try tauto; try congruence;
      try (exfalso; apply H; tauto);
      try (destruct H as [H|[H|H]]; congruence || contradiction);
      try (destruct H as [H|H]; congruence || contradiction).
Qed.



(** ** Saving a batch *)

Section SavingProps.

Variable open_fault : string -> option string.
Variable format : string -> nat -> result string.

Local Abbreviation save_loop := (Files.save_loop open_fault format).
Local Abbreviation written :=
  (fun (fs : Files.files) (names : list string) (datas : list bytes) =>
     foldl (fun acc nd => <[nd.1 := nd.2]> acc) fs (zip names datas)).

Lemma save_loop_spec (filename_template : string) (datas : list bytes) :
  forall (i : nat) (saved : list string) (fs : Files.files),
  exists names,
    length names <= length datas /\
    (forall k nm, names !! k = Some nm ->
       format filename_template (i + k + 1) = Return nm /\
       open_fault nm = None) /\
    (save_loop filename_template i datas saved fs).2
      = written fs names datas /\
    match (save_loop filename_template i datas saved fs).1 with
    | Return files => files = saved ++ names /\ length names = length datas
    | Raise e =>
        length names < length datas /\
        exists msg,
          e = TTSError ("Failed to save batch item "
                        +++ str_of_nat (i + length names + 1) +++ ": " +++ msg)
    end.
Proof.
  induction datas as [|data rest IH]; intros i saved fs.
  - exists []. simpl. rewrite app_nil_r.
    split; [lia|]. split; [intros k nm H; discriminate|].
    split; [reflexivity|]. split; reflexivity.
  - cbn [Files.save_loop].
    destruct (format filename_template (i + 1)) as [nm|e] eqn:Hf.
    2:{ exists []. simpl.
        split; [lia|]. split; [intros k nm H; discriminate|].
        split; [reflexivity|]. split; [lia|].
        rewrite Nat.add_0_r. eauto. }
    unfold Files.save_audio.
    destruct (open_fault nm) as [msg|] eqn:Ho.
    { exists []. simpl.
      split; [lia|]. split; [intros k nm' H; discriminate|].
      split; [reflexivity|]. split; [lia|].
      rewrite Nat.add_0_r. eauto. }
    destruct (IH (S i) (saved ++ [nm]) (<[nm := data]> fs))
      as (names & Hlen & Hnames & Hfs & Hres).
    exists (nm :: names). split; [simpl; lia|]. split; [|split].
    + intros [|k] nm' H; simpl in H.
      * injection H as <-. rewrite Nat.add_0_r. auto.
      * replace (i + S k + 1) with (S i + k + 1) by lia. eauto.
    + rewrite Hfs. reflexivity.
    + destruct (save_loop filename_template (S i) rest (saved ++ [nm])
                  (<[nm := data]> fs)).1 as [files|e].
      * destruct Hres as [-> Hl]. rewrite <- app_assoc. simpl. split; [auto|lia].
      * destruct Hres as [Hl (msg & ->)]. split; [simpl; lia|].
        exists msg. simpl length.
        replace (i + S (length names) + 1) with (S i + length names + 1)
          by lia.
        reflexivity.
Qed.


End SavingProps.

(** ** Configuration dictionaries *)

Import ConfigDict.

Lemma arg_other_key (d : gmap string value) (k key : string) (v : value) :
  k <> key ->
  (forall default, str_arg (<[k := v]> d) key default = str_arg d key default)
  /\ (forall default, int_arg (<[k := v]> d) key default
                      = int_arg d key default)
  /\ (forall default, bool_arg (<[k := v]> d) key default
                      = bool_arg d key default).
Proof.
  intros H. unfold str_arg, int_arg, bool_arg.
  rewrite lookup_insert_ne by exact H. auto.
Qed.

(** X22: [from_dict] undoes [to_dict]: the dictionary of a configuration
    gives back the constructor's result for the same fields (the
    configuration itself when it satisfies the constraints).  A key that is
    no field name changes nothing, and the empty dictionary gives the
    defaults. *)
Theorem from_dict_of_to_dict (c : TTSConfig) (d : gmap string value)
    (k : string) (v : value) :
  from_dict (to_dict c) = Some (Config.new c) /\
  (~ In k field_names -> from_dict (<[k := v]> d) = from_dict d) /\
  from_dict ∅ = Some (Return defaults).
Proof.
  split; [destruct c; reflexivity|]. split; [|reflexivity].
  intros Hk. unfold from_dict.
  repeat match goal with
         | |- context [?f (<[k := v]> d) ?key ?default] =>
             let H := fresh in
             assert (H : k <> key)
               by (intros ->; apply Hk; simpl; tauto);
             destruct (arg_other_key d k key v H) as (Hs & Hi & Hb);
             rewrite ?Hs, ?Hi, ?Hb; clear Hs Hi Hb H
         end.
  reflexivity.
Qed.

(** ** One language of the multilingual demo *)

Section GenerateProps.

Variable service : nat -> string -> string -> stream.
Variable open_fault : string -> option string.
Variable path_join : string -> string -> string.

Local Abbreviation synthesize := (Demo.synthesize service).

Lemma synthesize_raises_tts (n : nat) (text voice : string) (e : exn) :
  synthesize n text voice = Raise e -> exists m, e = TTSError m.
Proof.
  unfold Demo.synthesize, synthesize_text, try_except, Client.bind.
  destruct (failure (service n text voice)); [intros [= <-]; eauto|].
  destruct (collect_audio _); [intros [= <-]; eauto|discriminate].
Qed.


End GenerateProps.

(** ** Locales *)

(** X24: the parts of a locale: [language_code] holds no hyphen, a locale
    without a hyphen has no country code and is its own language code, and
    otherwise the locale is the language code, a hyphen, the country code
    (which holds no hyphen) and whatever follows the next hyphen.  A voice
    matches its own locale and its own language code. *)
Theorem locale_parts (v : Voice) :
  has_char "-" (language_code v) = false /\
  matches_language v (locale v) = true /\
  matches_language v (language_code v) = true /\
  match country_code v with
  | None => has_char "-" (locale v) = false /\ language_code v = locale v
  | Some country =>
      has_char "-" country = false /\
      exists tail,
        locale v = language_code v +++ "-" +++ country +++ tail /\
        (tail = EmptyString \/ exists t, tail = "-" +++ t)
  end.
Proof.
  unfold matches_language, language_code, country_code.
  pose proof (split_no_sep "-" (locale v)) as Hno.
  pose proof (join_split "-" (locale v)) as Hjoin.
  rewrite String.eqb_refl.
  destruct (split "-" (locale v)) as [|p0 [|p1 rest]] eqn:Hs.
  - now apply split_nonempty in Hs.
  - simpl in *. subst p0. inversion Hno; subst.
    rewrite String.eqb_refl. auto.
  - simpl hd. inversion Hno as [|? ? H0 H']; subst.
    inversion H' as [|? ? H1 _]; subst.
    split; [exact H0|]. split; [reflexivity|].
    split; [destruct (String.eqb p0 (locale v)); [reflexivity|];
            now rewrite String.eqb_refl|].
    split; [exact H1|].
    rewrite <- Hjoin.
    change (join "-" (p0 :: p1 :: rest))
      with (p0 +++ "-" +++ join "-" (p1 :: rest)).
    destruct rest as [|p2 rest].
    + exists EmptyString. simpl join. rewrite cat_empty_r. auto.
    + exists ("-" +++ join "-" (p2 :: rest)). split; [reflexivity|eauto].
Qed.

(** ** Synthesize, save, play *)

Import SaveAndPlay.

